(** * PP-MiniLM width pruning ([prune.py]): a shallow embedding

    The development follows the script
    [examples/model_compression/PP-MiniLM/pruning/prune.py]:

    - [Argsort]   : [paddle.argsort(.., descending=True)], its contract
                    and the stable sort;
    - [Tensors]   : index selection, linear layers, the encoder layer and
                    [reorder_neuron_head];
    - [Loss]      : [soft_cross_entropy] and the per-width loss;
    - [Eval]      : [evaluate] and the train/eval mode of the model;
    - [Ernie]     : [ernie_forward] and its mask lists;
    - [PyFloat]   : the division of two integers into a float, and
                    [math.ceil];
    - [Train]     : the training loop of [do_train];
    - [Setup]     : [print_arguments] and the set-up lines of [do_train].

    Tensor numbers are idealised: scores and metric results are rationals
    ([Q]), the loss lives in [R], and tensor entries range over an
    arbitrary carrier whose addition is only assumed associative and
    commutative where a statement needs it.  The one float the control
    flow depends on, the quotient of line 345, is rounded as binary64
    is.

    The script calls into Paddle and PaddleSlim.  [paddle.argsort],
    [nlp_utils.compute_neuron_head_importance], [nlp_utils.reorder_head],
    [nlp_utils.reorder_neuron] and the forward pass of the encoder are
    modelled as the design describes them, and marked as such; where a
    statement holds for every descending sort, [argsort] is a parameter
    with that contract. *)

From Stdlib Require Import List Permutation Sorted Bool Arith ZArith QArith Lia.
From Stdlib Require Import Reals Lra.
From Stdlib Require String Ascii OrderedTypeEx DecimalString DecimalNat.
Import ListNotations.

Close Scope R_scope.
Close Scope Q_scope.

Set Implicit Arguments.

(* ================================================================= *)
(** ** Index selection *)

(** [paddle.index_select(x, index, axis=0)] on a one-dimensional value:
    the entries of [x] at the positions listed in [index], in that order. *)
Definition index_select {A : Type} (d : A) (x : list A) (index : list nat)
  : list A :=
  map (fun i => nth i x d) index.

(** Every index addresses an existing position (paddle raises otherwise). *)
Definition in_range (n : nat) (index : list nat) : bool :=
  forallb (fun i => i <? n) index.

(* ----------------------------------------------------------------- *)
(** *** Facts on index selection *)

Section IndexFacts.

Variable A : Type.
Variable d : A.
Implicit Types (x : list A) (index : list nat).

Lemma index_select_length x index :
  length (index_select d x index) = length index.
Proof. apply length_map. Qed.

Lemma nth_index_select x index i :
  i < length index ->
  nth i (index_select d x index) d = nth (nth i index 0) x d.
Proof.
  intro H. unfold index_select. symmetry.
  apply nth_nth_nth_map. now left.
Qed.

Lemma in_range_Forall n index :
  in_range n index = true <-> Forall (fun i => i < n) index.
Proof.
  unfold in_range. rewrite forallb_forall, Forall_forall.
  split; intros H i Hi; specialize (H i Hi); now apply Nat.ltb_lt.
Qed.

Lemma index_select_seq_all x :
  index_select d x (seq 0 (length x)) = x.
Proof.
  unfold index_select.
  induction x as [| a t IH]; simpl; [reflexivity |].
  f_equal. rewrite <- seq_shift, map_map. exact IH.
Qed.

(** Selecting along a permutation of the positions permutes the list. *)
Lemma index_select_perm x index :
  Permutation index (seq 0 (length x)) ->
  Permutation (index_select d x index) x.
Proof.
  intro P. rewrite <- (index_select_seq_all x) at 2.
  unfold index_select. now apply Permutation_map.
Qed.

Lemma perm_in_range n index :
  Permutation index (seq 0 n) -> in_range n index = true.
Proof.
  intro P. apply in_range_Forall, Forall_forall. intros i Hi.
  apply (Permutation_in _ P), in_seq in Hi. lia.
Qed.

Lemma perm_seq_length n index :
  Permutation index (seq 0 n) -> length index = n.
Proof.
  intro P. apply Permutation_length in P. now rewrite length_seq in P.
Qed.

(** Selecting twice is selecting along the selected indices. *)
Lemma index_select_compose x index index' :
  in_range (length index) index' = true ->
  index_select d (index_select d x index) index'
  = index_select d x (index_select 0 index index').
Proof.
  intro H. apply in_range_Forall in H. rewrite Forall_forall in H.
  unfold index_select. rewrite map_map. apply map_ext_in. intros i Hi.
  apply (nth_index_select x index), H, Hi.
Qed.

(** Behind a prefix [l1], positions shift by its length. *)
Lemma index_select_app_shift (l1 l2 : list A) s k :
  index_select d (l1 ++ l2) (seq (length l1 + s) k)
  = index_select d l2 (seq s k).
Proof.
  revert s. induction k as [| k IH]; intro s; simpl; [reflexivity |].
  f_equal.
  - rewrite app_nth2 by lia. f_equal. lia.
  - rewrite <- IH. f_equal. f_equal. lia.
Qed.

Lemma index_select_app_prefix (l1 l2 : list A) :
  index_select d (l1 ++ l2) (seq 0 (length l1)) = l1.
Proof.
  rewrite <- (index_select_seq_all l1) at 3.
  unfold index_select. apply map_ext_in. intros i Hi.
  apply in_seq in Hi. apply app_nth1. lia.
Qed.

(** Block [h] of a concatenation of blocks of width [a]. *)
Lemma index_select_concat_block (a : nat) (blocks : list (list A)) h :
  Forall (fun b => length b = a) blocks ->
  h < length blocks ->
  index_select d (concat blocks) (seq (h * a) a) = nth h blocks [].
Proof.
  intro F. revert h. induction F as [| b bs Hb F IH]; intros h Hh; simpl in *.
  - lia.
  - destruct h as [| h]; simpl.
    + rewrite <- Hb. apply index_select_app_prefix.
    + rewrite <- Hb at 1. rewrite index_select_app_shift.
      apply IH. lia.
Qed.

End IndexFacts.

Arguments perm_in_range [n index] _.
Arguments perm_seq_length [n index] _.

Section IndexFactsMap.

Variables A B : Type.

(** In range, selection commutes with [map], whatever the defaults. *)
Lemma index_select_map (f : A -> B) (d : A) (d' : B) (l : list A) index :
  in_range (length l) index = true ->
  index_select d' (map f l) index = map f (index_select d l index).
Proof.
  intro H. apply in_range_Forall in H. rewrite Forall_forall in H.
  unfold index_select. rewrite map_map. apply map_ext_in. intros i Hi.
  rewrite (nth_indep _ d' (f d)) by (rewrite length_map; auto).
  apply map_nth.
Qed.

Lemma index_select_combine (da : A) (db : B) (x : list A) (y : list B)
    index :
  length x = length y ->
  combine (index_select da x index) (index_select db y index)
  = index_select (da, db) (combine x y) index.
Proof.
  intro L. unfold index_select.
  induction index as [| i t IH]; simpl; [reflexivity |].
  rewrite IH. f_equal. symmetry. now apply combine_nth.
Qed.

Lemma nth_map_seq (g : nat -> B) (d' : B) n k :
  k < n -> nth k (map g (seq 0 n)) d' = g k.
Proof.
  intro H. rewrite (nth_indep _ d' (g 0)) by now rewrite length_map, length_seq.
  rewrite map_nth, seq_nth; auto.
Qed.

End IndexFactsMap.

Section BlockFacts.

Variable A : Type.
Variable d : A.

Lemma length_concat_blocks (a : nat) (blocks : list (list A)) :
  Forall (fun b => length b = a) blocks ->
  length (concat blocks) = length blocks * a.
Proof.
  induction 1 as [| b bs Hb _ IH]; simpl; [reflexivity |].
  rewrite length_app, IH, Hb. reflexivity.
Qed.

(** The column order of a head order: head [h] owns columns
    [h*a .. h*a + a - 1]. *)
Definition expand_heads (a : nat) (index : list nat) : list nat :=
  flat_map (fun h => seq (h * a) a) index.

Lemma expand_heads_seq a n : expand_heads a (seq 0 n) = seq 0 (n * a).
Proof.
  unfold expand_heads. induction n as [| n IH]; [reflexivity |].
  rewrite seq_S, flat_map_app, IH. simpl. rewrite app_nil_r.
  rewrite <- seq_app. f_equal. lia.
Qed.

Lemma expand_heads_perm a n index :
  Permutation index (seq 0 n) ->
  Permutation (expand_heads a index) (seq 0 (n * a)).
Proof.
  intro P. rewrite <- expand_heads_seq.
  unfold expand_heads. now apply Permutation_flat_map.
Qed.

(** Reordering blocks is selecting along the expanded order. *)
Lemma concat_index_select_blocks (a : nat) (blocks : list (list A)) index :
  Forall (fun b => length b = a) blocks ->
  in_range (length blocks) index = true ->
  concat (index_select [] blocks index)
  = index_select d (concat blocks) (expand_heads a index).
Proof.
  intros F H. apply in_range_Forall in H.
  induction H as [| h t Hh _ IH]; simpl; [reflexivity |].
  unfold index_select at 2. rewrite map_app. fold (index_select d).
  rewrite IH. f_equal. symmetry. now apply index_select_concat_block.
Qed.

End BlockFacts.

Arguments expand_heads_perm a [n index] _.

(** Block [p] of an expanded head order lists the columns of the head at
    position [p]. *)
Lemma expand_heads_block a index p :
  p < length index ->
  index_select 0 (expand_heads a index) (seq (p * a) a)
  = seq (nth p index 0 * a) a.
Proof.
  intro H. unfold expand_heads. rewrite flat_map_concat_map.
  rewrite index_select_concat_block.
  - rewrite (nth_indep _ [] (seq (0 * a) a)) by now rewrite length_map.
    apply (map_nth (fun h => seq (h * a) a)).
  - apply Forall_forall. intros b Hb. apply in_map_iff in Hb.
    destruct Hb as [h [<- _]]. apply length_seq.
  - now rewrite length_map.
Qed.

(* ================================================================= *)
(** ** [paddle.argsort(scores, descending=True)] *)

Module Argsort.

Local Open Scope Q_scope.

(** Strict comparison of two scores. *)
Definition Qltb (x y : Q) : bool := negb (Qle_bool y x).

(** What the call returns, as far as the script relies on it: the indices
    [0 .. len-1], each once, listed so that the scores never increase. *)
Definition descending (scores : list Q) (i j : nat) : Prop :=
  nth j scores 0 <= nth i scores 0.

Definition is_argsort (scores : list Q) (idx : list nat) : Prop :=
  Permutation idx (seq 0 (length scores)) /\
  StronglySorted (descending scores) idx.

Definition argsort_spec (argsort : list Q -> list nat) : Prop :=
  forall scores, is_argsort scores (argsort scores).

(** Insertion of index [i] into an index list already in descending order.
    With [ties_first = true] index [i] is placed in front of the entries
    whose score equals its own, with [false] behind them. *)
Definition goes_after (ties_first : bool) (si sj : Q) : bool :=
  if ties_first then Qltb si sj else Qle_bool si sj.

Fixpoint insert_desc (ties_first : bool) (scores : list Q) (i : nat)
    (idx : list nat) : list nat :=
  match idx with
  | [] => [i]
  | j :: t =>
      if goes_after ties_first (nth i scores 0) (nth j scores 0)
      then j :: insert_desc ties_first scores i t
      else i :: j :: t
  end.

Definition argsort_by (ties_first : bool) (scores : list Q) : list nat :=
  fold_right (insert_desc ties_first scores) [] (seq 0 (length scores)).

(** Modelled from the spec: [paddle.argsort(scores, descending=True)],
    which is not under src/.  The spec has the order derived "by sorting
    importance descending; ties broken by original index (stable sort)":
    equal scores keep their original order. *)
Definition argsort_stable : list Q -> list nat := argsort_by true.

(** Stability: among equal scores the smaller original index comes first. *)
Definition ties_by_index (scores : list Q) (idx : list nat) : Prop :=
  StronglySorted
    (fun i j => nth i scores 0 == nth j scores 0 -> (i < j)%nat) idx.

(* ----------------------------------------------------------------- *)
(** *** The insertion sort meets the contract *)

Lemma goes_after_le b x y : goes_after b x y = true -> x <= y.
Proof.
  destruct b; simpl; unfold Qltb; intro H.
  - apply negb_true_iff in H.
    destruct (Qlt_le_dec x y) as [L | L]; [now apply Qlt_le_weak |].
    apply Qle_bool_iff in L. congruence.
  - now apply Qle_bool_iff.
Qed.

Lemma goes_after_false b x y : goes_after b x y = false -> y <= x.
Proof.
  destruct b; simpl; unfold Qltb; intro H.
  - apply negb_false_iff in H. now apply Qle_bool_iff.
  - destruct (Qlt_le_dec x y) as [L | L]; [| exact L].
    apply Qlt_le_weak in L. apply Qle_bool_iff in L. congruence.
Qed.

Lemma insert_desc_perm b scores i idx :
  Permutation (insert_desc b scores i idx) (i :: idx).
Proof.
  induction idx as [| j t IH]; simpl; [reflexivity |].
  destruct (goes_after b _ _); [| reflexivity].
  rewrite IH. apply perm_swap.
Qed.

Lemma insert_desc_sorted b scores i idx :
  StronglySorted (descending scores) idx ->
  StronglySorted (descending scores) (insert_desc b scores i idx).
Proof.
  induction 1 as [| j t Hs IH Hj]; simpl.
  - repeat constructor.
  - destruct (goes_after b _ _) eqn:E.
    + constructor; [exact IH |].
      eapply Permutation_Forall;
        [symmetry; apply insert_desc_perm |].
      constructor; [| exact Hj].
      unfold descending. now apply goes_after_le in E.
    + apply goes_after_false in E.
      constructor; [now constructor |].
      constructor; [exact E |].
      eapply Forall_impl; [| exact Hj].
      unfold descending. intros k Hk. eapply Qle_trans; eassumption.
Qed.

Lemma argsort_by_spec b : argsort_spec (argsort_by b).
Proof.
  intro scores. unfold is_argsort, argsort_by.
  generalize (seq 0 (length scores)) as l.
  induction l as [| i l [IHp IHs]]; simpl.
  - split; constructor.
  - split.
    + rewrite insert_desc_perm. now constructor.
    + now apply insert_desc_sorted.
Qed.

(** A list sorted by an antisymmetric relation is determined by its
    elements. *)
Lemma sorted_perm_unique (A : Type) (R : A -> A -> Prop) (l1 l2 : list A) :
  (forall x y, In x l1 -> In y l1 -> R x y -> R y x -> x = y) ->
  StronglySorted R l1 -> StronglySorted R l2 -> Permutation l1 l2 ->
  l1 = l2.
Proof.
  revert l2. induction l1 as [| a t1 IH]; intros l2 Hanti S1 S2 P.
  - apply Permutation_nil in P. now subst.
  - destruct l2 as [| b t2];
      [apply Permutation_sym, Permutation_nil in P; discriminate |].
    inversion S1 as [| ? ? S1' F1]; subst.
    inversion S2 as [| ? ? S2' F2]; subst.
    assert (a = b) as ->.
    { destruct (Permutation_in a P (or_introl eq_refl)) as [E | Ia];
        [now subst |].
      destruct (Permutation_in b (Permutation_sym P) (or_introl eq_refl))
        as [E | Ib]; [now subst |].
      rewrite Forall_forall in F1, F2.
      apply Hanti; [now left | now right | now apply F1 | now apply F2]. }
    f_equal. apply IH; auto.
    + intros x y Hx Hy. apply Hanti; now right.
    + now apply Permutation_cons_inv in P.
Qed.

(** No two positions carry the same score. *)
Definition no_ties (scores : list Q) : Prop :=
  forall i j, (i < length scores)%nat -> (j < length scores)%nat ->
    nth i scores 0 == nth j scores 0 -> i = j.

(** Without equal scores the contract leaves one answer only. *)
Lemma is_argsort_unique scores idx1 idx2 :
  no_ties scores ->
  is_argsort scores idx1 -> is_argsort scores idx2 -> idx1 = idx2.
Proof.
  intros NT [P1 S1] [P2 S2].
  apply sorted_perm_unique with (R := descending scores); auto.
  - intros x y Hx Hy Rxy Ryx.
    apply NT.
    + apply (Permutation_in _ P1), in_seq in Hx. lia.
    + apply (Permutation_in _ P1), in_seq in Hy. lia.
    + now apply Qle_antisym.
  - now rewrite P1, P2.
Qed.

(** The stable insertion sort breaks ties by original index. *)
Lemma insert_desc_stable scores i idx :
  Forall (fun j => (i < j)%nat) idx ->
  StronglySorted
    (fun i j => nth i scores 0 == nth j scores 0 -> (i < j)%nat) idx ->
  StronglySorted
    (fun i j => nth i scores 0 == nth j scores 0 -> (i < j)%nat)
    (insert_desc true scores i idx).
Proof.
  intros Lt S. induction S as [| j t S IH Hj]; simpl.
  - repeat constructor.
  - inversion Lt as [| ? ? Lj Lt']; subst.
    destruct (Qltb (nth i scores 0) (nth j scores 0)) eqn:E.
    + constructor; [now apply IH |].
      eapply Permutation_Forall; [symmetry; apply insert_desc_perm |].
      constructor; [| exact Hj].
      intro Eq. exfalso. unfold Qltb in E. apply negb_true_iff in E.
      assert (L : Qle_bool (nth j scores 0) (nth i scores 0) = true)
        by (apply Qle_bool_iff; rewrite Eq; apply Qle_refl).
      congruence.
    + constructor; [now constructor |].
      apply Forall_forall. intros k Hk _.
      rewrite Forall_forall in Lt. now apply Lt.
Qed.

Lemma argsort_stable_ties scores :
  ties_by_index scores (argsort_stable scores).
Proof.
  unfold ties_by_index, argsort_stable, argsort_by.
  generalize 0%nat as s. generalize (length scores) as n.
  induction n as [| n IH]; intro s; simpl; [constructor |].
  apply insert_desc_stable; [| apply IH].
  apply Forall_forall. intros j Hj.
  assert (P : Permutation
                (fold_right (insert_desc true scores) [] (seq (S s) n))
                (seq (S s) n)).
  { generalize (seq (S s) n) as l.
    induction l as [| x l IHl]; simpl; [constructor |].
    rewrite insert_desc_perm. now constructor. }
  apply (Permutation_in _ P), in_seq in Hj. lia.
Qed.

Lemma strongly_sorted_both (A : Type) (R1 R2 : A -> A -> Prop) l :
  StronglySorted R1 l -> StronglySorted R2 l ->
  StronglySorted (fun x y => R1 x y /\ R2 x y) l.
Proof.
  induction 1 as [| a t S1 IH F1]; intro S2; [constructor |].
  inversion S2 as [| ? ? S2' F2]; subst. constructor; [now apply IH |].
  rewrite Forall_forall in *. intros x Hx. split; auto.
Qed.

(** Descending order with ties by original index leaves one answer only:
    the words of the spec determine the order. *)
Lemma stable_argsort_unique scores idx :
  is_argsort scores idx -> ties_by_index scores idx ->
  idx = argsort_stable scores.
Proof.
  intros [P1 S1] T1.
  destruct (argsort_by_spec true scores) as [P2 S2].
  pose proof (argsort_stable_ties scores) as T2.
  apply sorted_perm_unique
    with (R := fun i j => descending scores i j /\
                          (nth i scores 0 == nth j scores 0 -> (i < j)%nat)).
  - intros x y _ _ [D1 I1] [D2 I2]. unfold descending in D1, D2.
    assert (E : nth x scores 0 == nth y scores 0)
      by (apply Qle_antisym; assumption).
    specialize (I1 E). symmetry in E. specialize (I2 E). lia.
  - now apply strongly_sorted_both.
  - now apply strongly_sorted_both.
  - unfold argsort_stable. now rewrite P1, P2.
Qed.

(** Scores that are already strictly descending. *)
Definition strictly_descending (scores : list Q) : Prop :=
  StronglySorted (fun a b => b < a) scores.

Lemma strongly_sorted_nth (A : Type) (R : A -> A -> Prop) (d : A) l :
  StronglySorted R l ->
  forall i j, (i < j)%nat -> (j < length l)%nat -> R (nth i l d) (nth j l d).
Proof.
  induction 1 as [| a t S IH F]; intros i j Hij Hj; simpl in *; [lia |].
  destruct j as [| j]; [lia |]. destruct i as [| i].
  - rewrite Forall_forall in F. apply F, nth_In. lia.
  - apply IH; lia.
Qed.

Lemma strongly_sorted_seq (R : nat -> nat -> Prop) n :
  forall s,
    (forall i j, (s <= i)%nat -> (i < j)%nat -> (j < s + n)%nat -> R i j) ->
    StronglySorted R (seq s n).
Proof.
  induction n as [| n IH]; intros s H; simpl; constructor.
  - apply IH. intros i j Hs Hij Hj. apply H; lia.
  - apply Forall_forall. intros j Hj. apply in_seq in Hj. apply H; lia.
Qed.

(** For strictly descending scores the identity order is the only one
    that meets the contract. *)
Lemma strictly_descending_argsort argsort scores :
  argsort_spec argsort -> strictly_descending scores ->
  argsort scores = seq 0 (length scores).
Proof.
  intros A S.
  assert (N : forall i j, (i < j)%nat -> (j < length scores)%nat ->
                          nth j scores 0 < nth i scores 0).
  { intros i j Hij Hj.
    apply (strongly_sorted_nth (R := fun a b => b < a) 0 S Hij Hj). }
  apply is_argsort_unique with (scores := scores).
  - intros i j Hi Hj E.
    destruct (Nat.lt_trichotomy i j) as [L | [-> | L]]; auto; exfalso.
    + specialize (N i j L Hj). rewrite E in N. now apply Qlt_irrefl in N.
    + specialize (N j i L Hi). rewrite E in N. now apply Qlt_irrefl in N.
  - apply A.
  - split; [reflexivity |].
    apply strongly_sorted_seq. intros i j _ Hij Hj.
    unfold descending. apply Qlt_le_weak, N; lia.
Qed.

End Argsort.

(* ================================================================= *)
(** ** Weights, the encoder layer and [reorder_neuron_head] *)

Module Tensors.

(** Errors ([IndexError], shape mismatches) are [None]. *)
Definition bind {A B : Type} (m : option A) (k : A -> option B) : option B :=
  match m with
  | Some a => k a
  | None => None
  end.

Notation "x <- m ;; k" := (bind m (fun x => k))
  (at level 61, m at next level, right associativity).

Section Carrier.

(** Tensor entries.  Nothing is assumed of the arithmetic here. *)
Variable T : Type.
Variable tzero : T.
Variables tadd tmul : T -> T -> T.

Definition vec : Type := list T.
Definition matrix : Type := list (list T).

(** Shape of a two-dimensional weight, stored row by row. *)
Definition nrows (W : matrix) : nat := length W.
Definition ncols (W : matrix) : nat := length (hd [] W).

Definition same_shape (W W' : matrix) : bool :=
  (nrows W =? nrows W') && (ncols W =? ncols W').

(** [paddle.index_select(W, index, axis=dim)] for a two-dimensional [W];
    an index outside the axis, or an axis other than 0 and 1, raises. *)
Definition index_select_2d (W : matrix) (index : list nat) (dim : nat)
  : option matrix :=
  match dim with
  | 0 => if in_range (nrows W) index
         then Some (index_select [] W index) else None
  | 1 => if in_range (ncols W) index
         then Some (map (fun row => index_select tzero row index) W)
         else None
  | _ => None
  end.

Definition index_select_1d (b : vec) (index : list nat) : option vec :=
  if in_range (length b) index
  then Some (index_select tzero b index) else None.

(** A [paddle.nn.Linear]: [weight] has shape [in_features, out_features]. *)
Record Linear : Type := mkLinear {
  weight : matrix;
  bias : option vec
}.

(** Modelled from the spec: the weight update shared by
    [nlp_utils.reorder_neuron] and [nlp_utils.reorder_head] (PaddleSlim),
    which "moves together" the weight slice and the bias entry of a head
    or neuron: select along [dim] in the weight, and in the bias unless
    [dim == 0] (the bias of a layer reordered on its input side stays);
    the reordered value must have the shape of the old one. *)
Definition reorder_matrix (linearLayer : Linear) (index : list nat)
    (dim : nat) : option Linear :=
  W <- index_select_2d (weight linearLayer) index dim ;;
  b <- match bias linearLayer with
       | None => Some None
       | Some b0 =>
           if dim =? 0 then Some (Some b0)
           else b1 <- index_select_1d b0 index ;;
                if length b1 =? length b0 then Some (Some b1) else None
       end ;;
  if same_shape W (weight linearLayer)
  then Some {| weight := W; bias := b |}
  else None.

(** Modelled from the spec: [nlp_utils.reorder_neuron(layer, index, dim)]
    (PaddleSlim). *)
Definition reorder_neuron (layer : Linear) (index : list nat) (dim : nat)
  : option Linear :=
  reorder_matrix layer index dim.

(** A [paddle.nn.MultiHeadAttention]. *)
Record MultiHeadAttention : Type := mkMHA {
  num_heads : nat;
  head_dim : nat;
  q_proj : Linear;
  k_proj : Linear;
  v_proj : Linear;
  out_proj : Linear
}.

(** [reshape(arange(0, n * a), [n, a])]: row [h] lists the columns of
    head [h]. *)
Definition head_columns (n a : nat) : list (list nat) :=
  map (fun h => seq (h * a) a) (seq 0 n).

(** Modelled from the spec: [nlp_utils.reorder_head(layer, index)]
    (PaddleSlim).  "All slices for head i move together": the head order
    [index] is expanded to a column order, applied along [dim=1] to the
    query, key and value projections and their biases, and along [dim=0]
    to the output projection. *)
Definition reorder_head (layer : MultiHeadAttention) (index : list nat)
  : option MultiHeadAttention :=
  let n := num_heads layer in
  let a := head_dim layer in
  if in_range n index then
    let idx := concat (index_select [] (head_columns n a) index) in
    q <- reorder_matrix (q_proj layer) idx 1 ;;
    k <- reorder_matrix (k_proj layer) idx 1 ;;
    v <- reorder_matrix (v_proj layer) idx 1 ;;
    o <- reorder_matrix (out_proj layer) idx 0 ;;
    Some {| num_heads := n; head_dim := a;
            q_proj := q; k_proj := k; v_proj := v; out_proj := o |}
  else None.

(** One [TransformerEncoderLayer] of the encoder.  The two layer norms and
    the activation are kept as the functions they compute. *)
Record EncoderLayer : Type := mkLayer {
  self_attn : MultiHeadAttention;
  linear1 : Linear;
  linear2 : Linear;
  norm1 : vec -> vec;
  norm2 : vec -> vec;
  activation : T -> T
}.

(** The classifier: embeddings, the encoder stack, and the pooler with the
    classification head on top. *)
Record Model (Input Output : Type) : Type := mkModel {
  embeddings : Input -> list vec;
  layers : list EncoderLayer;
  classifier : list vec -> Output
}.

(** [layers[layer] = l], in place. *)
Fixpoint set_layer (ls : list EncoderLayer) (layer : nat) (l : EncoderLayer)
  : list EncoderLayer :=
  match ls, layer with
  | [], _ => []
  | _ :: t, 0 => l :: t
  | x :: t, S k => x :: set_layer t k l
  end.

Section Reorder.

Variable argsort : list Q -> list nat.

(** The body of the loop of [reorder_neuron_head] for one layer (lines
    221-230).  [head_importance[layer]] and [layers[layer]] raise when
    [layer] is out of range. *)
Definition reorder_layer (ls : list EncoderLayer)
    (head_importance : list (list Q)) (layer : nat)
    (current_importance : list Q) : option (list EncoderLayer) :=
  (* reorder heads *)
  scores <- nth_error head_importance layer ;;
  let idx := argsort scores in
  l <- nth_error ls layer ;;
  attn <- reorder_head (self_attn l) idx ;;
  (* reorder neurons *)
  let idx := argsort current_importance in
  l1 <- reorder_neuron (linear1 l) idx 1 ;;
  l2 <- reorder_neuron (linear2 l) idx 0 ;;
  Some (set_layer ls layer
          {| self_attn := attn; linear1 := l1; linear2 := l2;
             norm1 := norm1 l; norm2 := norm2 l;
             activation := activation l |}).

(** [for layer, current_importance in enumerate(neuron_importance)]. *)
Fixpoint reorder_layers (ls : list EncoderLayer)
    (head_importance : list (list Q)) (layer : nat)
    (neuron_importance : list (list Q)) : option (list EncoderLayer) :=
  match neuron_importance with
  | [] => Some ls
  | current_importance :: rest =>
      ls' <- reorder_layer ls head_importance layer current_importance ;;
      reorder_layers ls' head_importance (S layer) rest
  end.

(** Lines 218-230. *)
Definition reorder_neuron_head {Input Output : Type}
    (model : Model Input Output)
    (head_importance neuron_importance : list (list Q))
  : option (Model Input Output) :=
  ls <- reorder_layers (layers model) head_importance 0 neuron_importance ;;
  Some {| embeddings := embeddings model;
          layers := ls;
          classifier := classifier model |}.

End Reorder.

(* ----------------------------------------------------------------- *)
(** *** The forward pass at full width *)

Definition dot (x c : vec) : T :=
  fold_right tadd tzero (map (fun p => tmul (fst p) (snd p)) (combine x c)).

Definition vadd (x y : vec) : vec :=
  map (fun p => tadd (fst p) (snd p)) (combine x y).

Definition column (j : nat) (W : matrix) : vec :=
  map (fun row => nth j row tzero) W.

(** Modelled from the spec: a [paddle.nn.Linear] applied to one row,
    [x @ weight + bias]. *)
Definition linear_fwd (lin : Linear) (x : vec) : vec :=
  let y := map (fun j => dot x (column j (weight lin)))
               (seq 0 (ncols (weight lin))) in
  match bias lin with
  | None => y
  | Some b => vadd y b
  end.

(** Columns [h*a .. h*a + a - 1] of every row: the part of a projection
    that belongs to head [h]. *)
Definition head_slice (a h : nat) (M : list vec) : list vec :=
  map (fun row => index_select tzero row (seq (h * a) a)) M.

(** What one head computes from its queries, keys and values (scaled
    dot-product attention); the same for every head. *)
Variable attend : list vec -> list vec -> list vec -> list vec.

(** Modelled from the spec: multi-head attention at full width.  Every
    head works on its slice of the three projections; "attention-head
    outputs are combined by concatenation-then-linear-projection". *)
Definition attn_forward (layer : MultiHeadAttention) (X : list vec)
  : list vec :=
  let n := num_heads layer in
  let a := head_dim layer in
  let Q := map (linear_fwd (q_proj layer)) X in
  let K := map (linear_fwd (k_proj layer)) X in
  let V := map (linear_fwd (v_proj layer)) X in
  let heads :=
    map (fun h => attend (head_slice a h Q) (head_slice a h K)
                         (head_slice a h V)) (seq 0 n) in
  (* concatenate the heads position by position, then project *)
  let merged :=
    map (fun t => concat (map (fun O => nth t O []) heads))
        (seq 0 (length X)) in
  map (linear_fwd (out_proj layer)) merged.

Definition madd (X Y : list vec) : list vec :=
  map (fun p => vadd (fst p) (snd p)) (combine X Y).

(** Modelled from the spec: the feed-forward block on one row;
    "feed-forward neuron outputs are combined by summation", here by
    [linear2]. *)
Definition ffn_forward (l : EncoderLayer) (x : vec) : vec :=
  linear_fwd (linear2 l) (map (activation l) (linear_fwd (linear1 l) x)).

(** Modelled from the spec: one encoder layer in inference mode, with
    its two residual connections and layer norms. *)
Definition layer_forward (l : EncoderLayer) (X : list vec) : list vec :=
  let X1 := map (norm1 l) (madd X (attn_forward (self_attn l) X)) in
  map (norm2 l) (madd X1 (map (ffn_forward l) X1)).

(** Modelled from the spec: the forward pass of the classifier at
    WidthRatio = 1.0. *)
Definition forward {Input Output : Type} (model : Model Input Output)
    (input : Input) : Output :=
  classifier model
    (fold_left (fun X l => layer_forward l X) (layers model)
               (embeddings model input)).

(* ----------------------------------------------------------------- *)
(** *** Shapes on which the reordering goes through *)

Definition rectangular (W : matrix) : Prop :=
  Forall (fun r => length r = ncols W) W.

Definition bias_fits (lin : Linear) (n : nat) : Prop :=
  match bias lin with
  | None => True
  | Some b => length b = n
  end.

(** The two results of [reorder_matrix]. *)
Definition select_cols (lin : Linear) (index : list nat) : Linear :=
  {| weight := map (fun row => index_select tzero row index) (weight lin);
     bias := option_map (fun b => index_select tzero b index) (bias lin) |}.

Definition select_rows (lin : Linear) (index : list nat) : Linear :=
  {| weight := index_select [] (weight lin) index;
     bias := bias lin |}.

Lemma ncols_select_cols W index :
  length index = ncols W ->
  ncols (map (fun row => index_select tzero row index) W) = ncols W.
Proof.
  intro L. destruct W as [| r W]; [reflexivity |].
  unfold ncols in *. simpl in *. now rewrite index_select_length.
Qed.

Lemma ncols_select_rows W index :
  rectangular W -> Permutation index (seq 0 (nrows W)) ->
  ncols (index_select [] W index) = ncols W.
Proof.
  intros R P. destruct index as [| i t].
  - apply perm_seq_length in P. unfold nrows in P.
    destruct W; [reflexivity | discriminate].
  - unfold ncols at 1. simpl.
    assert (Hi : i < nrows W).
    { apply perm_in_range, in_range_Forall in P. now inversion P. }
    unfold rectangular in R. rewrite Forall_forall in R.
    apply R, nth_In, Hi.
Qed.

Lemma reorder_matrix_cols lin index :
  Permutation index (seq 0 (ncols (weight lin))) ->
  bias_fits lin (ncols (weight lin)) ->
  reorder_matrix lin index 1 = Some (select_cols lin index).
Proof.
  intros P B. pose proof (perm_seq_length P) as L.
  unfold reorder_matrix, index_select_2d, select_cols, bias_fits in *.
  rewrite (perm_in_range P). simpl bind.
  destruct (bias lin) as [b |]; simpl.
  - unfold index_select_1d. rewrite B, (perm_in_range P). simpl.
    rewrite index_select_length, L, Nat.eqb_refl. simpl.
    unfold same_shape, nrows. rewrite length_map, ncols_select_cols by exact L.
    now rewrite !Nat.eqb_refl.
  - unfold same_shape, nrows. rewrite length_map, ncols_select_cols by exact L.
    now rewrite !Nat.eqb_refl.
Qed.

Lemma reorder_matrix_rows lin index :
  Permutation index (seq 0 (nrows (weight lin))) ->
  rectangular (weight lin) ->
  reorder_matrix lin index 0 = Some (select_rows lin index).
Proof.
  intros P R. pose proof (perm_seq_length P) as L.
  unfold reorder_matrix, index_select_2d, select_rows.
  rewrite (perm_in_range P). simpl bind.
  assert (S : same_shape (index_select [] (weight lin) index) (weight lin)
              = true).
  { unfold same_shape. rewrite ncols_select_rows by assumption.
    unfold nrows at 1. rewrite index_select_length, L.
    now rewrite !Nat.eqb_refl. }
  destruct (bias lin); simpl; now rewrite S.
Qed.

(* ----------------------------------------------------------------- *)
(** *** Linear layers under a reordering *)

Lemma linear_fwd_length lin x :
  bias_fits lin (ncols (weight lin)) ->
  length (linear_fwd lin x) = ncols (weight lin).
Proof.
  unfold linear_fwd, bias_fits, vadd. intro B.
  destruct (bias lin) as [b |].
  - rewrite length_map, length_combine, length_map, length_seq, B.
    apply Nat.min_id.
  - now rewrite length_map, length_seq.
Qed.

Lemma column_select_cols W index j :
  j < length index ->
  column j (map (fun row => index_select tzero row index) W)
  = column (nth j index 0) W.
Proof.
  intro H. unfold column. rewrite map_map. apply map_ext. intro row.
  now apply nth_index_select.
Qed.

Lemma column_select_rows W index j :
  column j (index_select [] W index)
  = index_select tzero (column j W) index.
Proof.
  unfold column, index_select. rewrite !map_map. apply map_ext. intro i.
  rewrite <- (map_nth (fun row => nth j row tzero) W [] i).
  f_equal. now destruct j.
Qed.

Lemma vadd_index_select (y b : vec) index :
  length y = length b ->
  in_range (length y) index = true ->
  vadd (index_select tzero y index) (index_select tzero b index)
  = index_select tzero (vadd y b) index.
Proof.
  intros L H. unfold vadd.
  rewrite (index_select_combine tzero tzero y b index L).
  symmetry. apply index_select_map.
  now rewrite length_combine, <- L, Nat.min_id.
Qed.

(** Columns selected in the weight (and bias): the output is selected the
    same way. *)
Lemma linear_fwd_select_cols lin index x :
  Permutation index (seq 0 (ncols (weight lin))) ->
  bias_fits lin (ncols (weight lin)) ->
  linear_fwd (select_cols lin index) x
  = index_select tzero (linear_fwd lin x) index.
Proof.
  intros P B. pose proof (perm_seq_length P) as L.
  pose proof (perm_in_range P) as R.
  assert (Y : map (fun j => dot x (column j (weight (select_cols lin index))))
                  (seq 0 (ncols (weight (select_cols lin index))))
              = index_select tzero
                  (map (fun j => dot x (column j (weight lin)))
                       (seq 0 (ncols (weight lin)))) index).
  { simpl. rewrite ncols_select_cols by exact L. rewrite <- L.
    transitivity (map (fun k => dot x (column k (weight lin)))
                      (index_select 0 index (seq 0 (length index)))).
    - unfold index_select at 2. rewrite map_map. apply map_ext_in.
      intros j Hj. apply in_seq in Hj.
      rewrite column_select_cols by lia. reflexivity.
    - rewrite index_select_seq_all. unfold index_select.
      apply map_ext_in. intros k Hk.
      apply in_range_Forall in R. rewrite Forall_forall in R.
      rewrite L. symmetry. apply nth_map_seq. now apply R. }
  unfold linear_fwd. rewrite Y. unfold bias_fits in B. simpl.
  destruct (bias lin) as [b |]; simpl; [| reflexivity].
  apply vadd_index_select; now rewrite length_map, length_seq.
Qed.

(* ----------------------------------------------------------------- *)
(** *** Attention heads under a reordering *)

Lemma head_order_expand n a index :
  in_range n index = true ->
  concat (index_select [] (head_columns n a) index) = expand_heads a index.
Proof.
  intro H. apply in_range_Forall in H. rewrite Forall_forall in H.
  unfold expand_heads. rewrite flat_map_concat_map. f_equal.
  unfold index_select, head_columns. apply map_ext_in. intros h Hh.
  apply (nth_map_seq (fun h => seq (h * a) a)). now apply H.
Qed.

(** The attention block [reorder_head] leaves behind. *)
Definition select_heads (layer : MultiHeadAttention) (index : list nat)
  : MultiHeadAttention :=
  let idx := expand_heads (head_dim layer) index in
  {| num_heads := num_heads layer;
     head_dim := head_dim layer;
     q_proj := select_cols (q_proj layer) idx;
     k_proj := select_cols (k_proj layer) idx;
     v_proj := select_cols (v_proj layer) idx;
     out_proj := select_rows (out_proj layer) idx |}.

(** The projections are as wide as all heads together. *)
Definition proj_fits (lin : Linear) (w : nat) : Prop :=
  ncols (weight lin) = w /\ bias_fits lin w.

Definition attn_fits (layer : MultiHeadAttention) : Prop :=
  let w := num_heads layer * head_dim layer in
  proj_fits (q_proj layer) w /\ proj_fits (k_proj layer) w /\
  proj_fits (v_proj layer) w /\
  nrows (weight (out_proj layer)) = w /\
  rectangular (weight (out_proj layer)).

Lemma reorder_head_ok layer index :
  attn_fits layer ->
  Permutation index (seq 0 (num_heads layer)) ->
  reorder_head layer index = Some (select_heads layer index).
Proof.
  intros (Fq & Fk & Fv & Fo & Ro) P.
  pose proof (expand_heads_perm (head_dim layer) P) as PF.
  unfold reorder_head, select_heads.
  rewrite (perm_in_range P).
  rewrite head_order_expand by exact (perm_in_range P).
  destruct Fq as [Cq Bq], Fk as [Ck Bk], Fv as [Cv Bv].
  rewrite (@reorder_matrix_cols (q_proj layer)), (@reorder_matrix_cols (k_proj layer)),
    (@reorder_matrix_cols (v_proj layer)), (@reorder_matrix_rows (out_proj layer));
    simpl; congruence.
Qed.

(** The feed-forward block: [linear1] is as wide as [linear2] is high. *)
Definition ffn_fits (l : EncoderLayer) (d_ff : nat) : Prop :=
  proj_fits (linear1 l) d_ff /\
  nrows (weight (linear2 l)) = d_ff /\
  rectangular (weight (linear2 l)).

Section Preservation.

(** Summation does not depend on the order of the summands. *)
Hypothesis tadd_comm : forall x y, tadd x y = tadd y x.
Hypothesis tadd_assoc : forall x y z, tadd x (tadd y z) = tadd (tadd x y) z.

Lemma fold_right_tadd_perm (l l' : list T) :
  Permutation l l' -> fold_right tadd tzero l = fold_right tadd tzero l'.
Proof.
  induction 1 as [| a l l' _ IH | a b l | l l' l'' _ IH1 _ IH2]; simpl.
  - reflexivity.
  - now rewrite IH.
  - now rewrite !tadd_assoc, (tadd_comm a b).
  - now rewrite IH1.
Qed.

Lemma dot_index_select (x c : vec) index :
  length x = length c ->
  Permutation index (seq 0 (length x)) ->
  dot (index_select tzero x index) (index_select tzero c index) = dot x c.
Proof.
  intros L P. unfold dot.
  rewrite (index_select_combine tzero tzero x c index L).
  apply fold_right_tadd_perm, Permutation_map, index_select_perm.
  now rewrite length_combine, <- L, Nat.min_id.
Qed.

(** Rows selected in the weight and the input selected the same way: the
    output is unchanged. *)
Lemma linear_fwd_select_rows lin index x :
  Permutation index (seq 0 (nrows (weight lin))) ->
  rectangular (weight lin) ->
  length x = nrows (weight lin) ->
  linear_fwd (select_rows lin index) (index_select tzero x index)
  = linear_fwd lin x.
Proof.
  intros P R Lx. unfold linear_fwd. simpl.
  rewrite ncols_select_rows by assumption.
  replace (map (fun j => dot (index_select tzero x index)
                             (column j (index_select [] (weight lin) index)))
               (seq 0 (ncols (weight lin))))
    with (map (fun j => dot x (column j (weight lin)))
              (seq 0 (ncols (weight lin)))); [reflexivity |].
  apply map_ext. intro j. rewrite column_select_rows.
  symmetry. apply dot_index_select.
  - unfold column. now rewrite length_map.
  - now rewrite Lx.
Qed.

(** One head returns one row per query, as wide as the value rows. *)
Hypothesis attend_shape : forall a Q K V,
  length K = length Q -> length V = length Q ->
  Forall (fun r => length r = a) V ->
  length (attend Q K V) = length Q /\
  Forall (fun r => length r = a) (attend Q K V).

Lemma head_slice_length a h M : length (head_slice a h M) = length M.
Proof. apply length_map. Qed.

Lemma head_slice_rows a h M :
  Forall (fun r => length r = a) (head_slice a h M).
Proof.
  apply Forall_forall. intros r Hr. apply in_map_iff in Hr.
  destruct Hr as [row [<- _]]. now rewrite index_select_length, length_seq.
Qed.

(** The part of a reordered projection at position [p] is the part of
    the original projection that belongs to head [index[p]]. *)
Lemma head_slice_select_cols lin index a n p X :
  Permutation index (seq 0 n) ->
  proj_fits lin (n * a) -> p < n ->
  head_slice a p
    (map (linear_fwd (select_cols lin (expand_heads a index))) X)
  = head_slice a (nth p index 0) (map (linear_fwd lin) X).
Proof.
  intros P [C B] Hp. pose proof (expand_heads_perm a P) as PF.
  rewrite <- C in PF, B.
  unfold head_slice. rewrite !map_map. apply map_ext. intro x.
  rewrite linear_fwd_select_cols by assumption.
  rewrite index_select_compose.
  - rewrite expand_heads_block; [reflexivity |].
    now rewrite (perm_seq_length P).
  - rewrite (perm_seq_length PF), C.
    apply in_range_Forall, Forall_forall. intros i Hi.
    apply in_seq in Hi. nia.
Qed.

(** Reordered heads compute the same attention output. *)
Lemma attn_forward_select_heads layer index X :
  attn_fits layer ->
  Permutation index (seq 0 (num_heads layer)) ->
  attn_forward (select_heads layer index) X = attn_forward layer X.
Proof.
  intros (Fq & Fk & Fv & Fo & Ro) P.
  set (n := num_heads layer) in *. set (a := head_dim layer) in *.
  pose proof (expand_heads_perm a P) as PF.
  pose proof (perm_seq_length P) as Ln.
  pose proof (perm_in_range P) as Rn.
  unfold attn_forward. simpl. fold n a.
  set (H := fun h =>
    attend (head_slice a h (map (linear_fwd (q_proj layer)) X))
           (head_slice a h (map (linear_fwd (k_proj layer)) X))
           (head_slice a h (map (linear_fwd (v_proj layer)) X))).
  assert (HS : forall h, length (H h) = length X /\
                         Forall (fun r => length r = a) (H h)).
  { intro h. unfold H.
    rewrite <- (length_map (linear_fwd (q_proj layer)) X) at 1.
    rewrite <- (head_slice_length a h (map (linear_fwd (q_proj layer)) X)).
    apply attend_shape.
    - now rewrite !head_slice_length, !length_map.
    - now rewrite !head_slice_length, !length_map.
    - apply head_slice_rows. }
  (* the heads, reordered *)
  assert (E : map (fun p =>
      attend
        (head_slice a p
           (map (linear_fwd (select_cols (q_proj layer) (expand_heads a index))) X))
        (head_slice a p
           (map (linear_fwd (select_cols (k_proj layer) (expand_heads a index))) X))
        (head_slice a p
           (map (linear_fwd (select_cols (v_proj layer) (expand_heads a index))) X)))
      (seq 0 n) = map H index).
  { transitivity (map H (index_select 0 index (seq 0 (length index))));
      [| now rewrite index_select_seq_all].
    rewrite Ln. unfold index_select. rewrite map_map. apply map_ext_in.
    intros p Hp. apply in_seq in Hp. unfold H.
    rewrite !(@head_slice_select_cols _ index a n p X) by (auto; lia).
    reflexivity. }
  rewrite E. clear E. fold H. rewrite !map_map.
  apply map_ext_in. intros t Ht. apply in_seq in Ht.
  set (blocks := map (fun h => nth t (H h) []) (seq 0 n)).
  assert (FB : Forall (fun b => length b = a) blocks).
  { apply Forall_forall. intros b Hb. apply in_map_iff in Hb.
    destruct Hb as [h [<- _]]. destruct (HS h) as [L F].
    rewrite Forall_forall in F. apply F, nth_In. lia. }
  replace (concat (map (fun O => nth t O []) (map H index)))
    with (index_select tzero (concat blocks) (expand_heads a index)).
  - replace (map (fun O => nth t O []) (map H (seq 0 n))) with blocks
      by (unfold blocks; now rewrite map_map).
    apply linear_fwd_select_rows.
    + now rewrite Fo.
    + exact Ro.
    + rewrite length_concat_blocks with (a := a) by exact FB. unfold blocks.
      now rewrite length_map, length_seq, Fo.
  - rewrite <- concat_index_select_blocks.
    + f_equal. rewrite map_map. unfold index_select, blocks.
      apply map_ext_in. intros h Hh.
      apply in_range_Forall in Rn. rewrite Forall_forall in Rn.
      apply (nth_map_seq (fun h => nth t (H h) [])). now apply Rn.
    + exact FB.
    + unfold blocks. now rewrite length_map, length_seq.
Qed.

(** Reordered neurons compute the same feed-forward output. *)
Lemma ffn_forward_select (l l' : EncoderLayer) index d_ff x :
  ffn_fits l d_ff ->
  Permutation index (seq 0 d_ff) ->
  linear1 l' = select_cols (linear1 l) index ->
  linear2 l' = select_rows (linear2 l) index ->
  activation l' = activation l ->
  ffn_forward l' x = ffn_forward l x.
Proof.
  intros ([C B] & Rw & Rc) P E1 E2 Ea.
  unfold ffn_forward. rewrite E1, E2, Ea.
  rewrite <- C in P, B.
  rewrite linear_fwd_select_cols by assumption.
  rewrite <- (index_select_map (activation l) tzero tzero).
  - apply linear_fwd_select_rows.
    + now rewrite Rw, <- C.
    + exact Rc.
    + now rewrite length_map, linear_fwd_length, Rw, C.
  - rewrite linear_fwd_length by assumption. now apply perm_in_range.
Qed.

(* ----------------------------------------------------------------- *)
(** *** The whole model *)

Variable argsort : list Q -> list nat.
Hypothesis argsort_ok : Argsort.argsort_spec argsort.

(** The layer that one round of the loop of [reorder_neuron_head] writes
    back. *)
Definition reordered (l : EncoderLayer) (head_scores neuron_scores : list Q)
  : EncoderLayer :=
  {| self_attn := select_heads (self_attn l) (argsort head_scores);
     linear1 := select_cols (linear1 l) (argsort neuron_scores);
     linear2 := select_rows (linear2 l) (argsort neuron_scores);
     norm1 := norm1 l;
     norm2 := norm2 l;
     activation := activation l |}.

(** One score per head and per neuron, and weights of matching shapes. *)
Definition layer_fits (l : EncoderLayer) (head_scores neuron_scores : list Q)
  : Prop :=
  attn_fits (self_attn l) /\
  length head_scores = num_heads (self_attn l) /\
  ffn_fits l (length neuron_scores).

(** The first layers fit their scores, one layer per entry of
    [neuron_importance]. *)
Fixpoint stack_fits (ls : list EncoderLayer)
    (head_importance neuron_importance : list (list Q)) : Prop :=
  match neuron_importance with
  | [] => True
  | neuron_scores :: ni =>
      match ls, head_importance with
      | l :: ls', head_scores :: hi =>
          layer_fits l head_scores neuron_scores /\ stack_fits ls' hi ni
      | _, _ => False
      end
  end.

(** The encoder stack after the loop of [reorder_neuron_head]. *)
Fixpoint reordered_stack (ls : list EncoderLayer)
    (head_importance neuron_importance : list (list Q))
  : list EncoderLayer :=
  match neuron_importance, ls, head_importance with
  | neuron_scores :: ni, l :: ls', head_scores :: hi =>
      reordered l head_scores neuron_scores :: reordered_stack ls' hi ni
  | _, _, _ => ls
  end.

Definition stack_forward (ls : list EncoderLayer) (X : list vec) : list vec :=
  fold_left (fun X l => layer_forward l X) ls X.

Lemma reorder_layer_ok ls head_importance layer l head_scores neuron_scores :
  nth_error head_importance layer = Some head_scores ->
  nth_error ls layer = Some l ->
  layer_fits l head_scores neuron_scores ->
  reorder_layer argsort ls head_importance layer neuron_scores
  = Some (set_layer ls layer (reordered l head_scores neuron_scores)).
Proof.
  intros Hh Hl (Fa & Lh & [C B] & Rw & Rc).
  destruct (argsort_ok head_scores) as [Ph _].
  destruct (argsort_ok neuron_scores) as [Pn _].
  unfold reorder_layer, reorder_neuron. rewrite Hh, Hl. simpl bind.
  rewrite reorder_head_ok by (auto; now rewrite <- Lh). simpl bind.
  rewrite reorder_matrix_cols by (rewrite C; auto). simpl bind.
  rewrite reorder_matrix_rows by (rewrite ?Rw; auto). reflexivity.
Qed.

Lemma layer_forward_reordered l head_scores neuron_scores X :
  layer_fits l head_scores neuron_scores ->
  layer_forward (reordered l head_scores neuron_scores) X
  = layer_forward l X.
Proof.
  intros (Fa & Lh & Ff).
  destruct (argsort_ok head_scores) as [Ph _].
  destruct (argsort_ok neuron_scores) as [Pn _].
  unfold layer_forward. cbn [self_attn norm1 norm2 reordered].
  rewrite attn_forward_select_heads by (auto; now rewrite <- Lh).
  f_equal. f_equal. apply map_ext. intro x.
  now apply ffn_forward_select with (index := argsort neuron_scores)
                                   (d_ff := length neuron_scores).
Qed.

Lemma set_layer_app pre l suf l' :
  set_layer (pre ++ l :: suf) (length pre) l' = pre ++ l' :: suf.
Proof. induction pre as [| x t IH]; simpl; [reflexivity | now rewrite IH]. Qed.

Lemma nth_error_middle (A : Type) (pre : list A) x suf :
  nth_error (pre ++ x :: suf) (length pre) = Some x.
Proof. induction pre; simpl; auto. Qed.

(** The loop, started at layer [length pre], rewrites the layers behind
    [pre] one after the other. *)
Lemma reorder_layers_spec neuron_importance :
  forall pre suf hpre hsuf,
    length hpre = length pre ->
    stack_fits suf hsuf neuron_importance ->
    reorder_layers argsort (pre ++ suf) (hpre ++ hsuf) (length pre)
                   neuron_importance
    = Some (pre ++ reordered_stack suf hsuf neuron_importance).
Proof.
  induction neuron_importance as [| ns ni IH];
    intros pre suf hpre hsuf L F; simpl.
  - now destruct suf.
  - destruct suf as [| l suf]; [contradiction |].
    destruct hsuf as [| hs hsuf]; [contradiction |].
    destruct F as [Fl F].
    rewrite reorder_layer_ok with (l := l) (head_scores := hs);
      [| rewrite <- L; apply nth_error_middle
       | apply nth_error_middle | exact Fl].
    simpl bind. rewrite set_layer_app.
    specialize (IH (pre ++ [reordered l hs ns]) suf (hpre ++ [hs]) hsuf).
    rewrite <- !app_assoc, !length_app in IH. simpl in IH.
    rewrite !Nat.add_1_r in IH. rewrite IH; auto.
Qed.

Lemma stack_forward_reordered ls :
  forall head_importance neuron_importance X,
    stack_fits ls head_importance neuron_importance ->
    stack_forward (reordered_stack ls head_importance neuron_importance) X
    = stack_forward ls X.
Proof.
  unfold stack_forward.
  induction ls as [| l ls IH]; intros hi ni X F.
  - now destruct ni, hi.
  - destruct ni as [| ns ni]; [reflexivity |].
    destruct hi as [| hs hi]; [contradiction |].
    destruct F as [Fl F]. simpl.
    rewrite layer_forward_reordered by exact Fl. now apply IH.
Qed.

Lemma reorder_neuron_head_spec (Input Output : Type)
    (model : Model Input Output) head_importance neuron_importance :
  stack_fits (layers model) head_importance neuron_importance ->
  reorder_neuron_head argsort model head_importance neuron_importance
  = Some {| embeddings := embeddings model;
            layers := reordered_stack (layers model) head_importance
                                      neuron_importance;
            classifier := classifier model |}.
Proof.
  intro F. unfold reorder_neuron_head.
  pose proof (reorder_layers_spec neuron_importance [] (layers model) []
                head_importance eq_refl F) as R.
  simpl in R. now rewrite R.
Qed.

(* ----------------------------------------------------------------- *)
(** *** Shapes survive the reordering *)





Lemma nth_error_reordered_stack ls :
  forall head_importance neuron_importance layer l head_scores neuron_scores,
    stack_fits ls head_importance neuron_importance ->
    nth_error ls layer = Some l ->
    nth_error head_importance layer = Some head_scores ->
    nth_error neuron_importance layer = Some neuron_scores ->
    layer_fits l head_scores neuron_scores /\
    nth_error (reordered_stack ls head_importance neuron_importance) layer
    = Some (reordered l head_scores neuron_scores).
Proof.
  induction ls as [| x ls IH]; intros hi ni layer l hs ns F Hl Hh Hn.
  - now destruct layer.
  - destruct ni as [| ns0 ni]; [now destruct layer |].
    destruct hi as [| hs0 hi]; [contradiction |].
    destruct F as [Fl F]. destruct layer as [| layer]; simpl in *.
    + injection Hl as <-. injection Hh as <-. injection Hn as <-. auto.
    + now apply IH.
Qed.

(* ----------------------------------------------------------------- *)
(** *** Statements on [reorder_neuron_head] *)

(** C1. Function preservation.  On a model whose weights fit the scores,
    [reorder_neuron_head] returns a model, and at full width that model
    computes, for every input, the output of the unmodified model.  The
    two outputs differ by the order of summation only: equality is
    derived from addition being associative and commutative, from the
    heads being combined by concatenation and projection, and from the
    contract of the descending [argsort]. *)
Theorem reorder_neuron_head_preserves_forward (Input Output : Type)
    (model : Model Input Output) head_importance neuron_importance :
  stack_fits (layers model) head_importance neuron_importance ->
  exists model',
    reorder_neuron_head argsort model head_importance neuron_importance
    = Some model' /\
    forall input, forward model' input = forward model input.
Proof.
  intro F. eexists. split.
  - now apply reorder_neuron_head_spec.
  - intro input. unfold forward. simpl. f_equal.
    now apply stack_forward_reordered.
Qed.

(** Every layer with scores is rewritten by the head order and the neuron
    order that [argsort] returns for its scores, the latter used for
    [linear1] along [dim=1] and for [linear2] along [dim=0]. *)
Lemma reorder_neuron_head_layers (Input Output : Type)
    (model : Model Input Output) head_importance neuron_importance :
  stack_fits (layers model) head_importance neuron_importance ->
  exists model',
    reorder_neuron_head argsort model head_importance neuron_importance
    = Some model' /\
    forall layer l head_scores neuron_scores,
      nth_error (layers model) layer = Some l ->
      nth_error head_importance layer = Some head_scores ->
      nth_error neuron_importance layer = Some neuron_scores ->
      let idx_heads := argsort head_scores in
      let idx_neurons := argsort neuron_scores in
      exists l',
        nth_error (layers model') layer = Some l' /\
        reorder_head (self_attn l) idx_heads = Some (self_attn l') /\
        reorder_neuron (linear1 l) idx_neurons 1 = Some (linear1 l') /\
        reorder_neuron (linear2 l) idx_neurons 0 = Some (linear2 l').
Proof.
  intro F. eexists. split; [now apply reorder_neuron_head_spec |].
  intros layer l hs ns Hl Hh Hn. simpl.
  destruct (nth_error_reordered_stack _ _ _ _ F Hl Hh Hn)
    as [(Fa & Lh & [C B] & Rw & Rc) E].
  exists (reordered l hs ns).
  pose proof (argsort_ok hs) as Ah. pose proof (argsort_ok ns) as An.
  destruct Ah as [Ph Sh], An as [Pn Sn].
  repeat split; auto; simpl; unfold reorder_neuron.
  - apply reorder_head_ok; auto. now rewrite <- Lh.
  - apply reorder_matrix_cols; rewrite C; auto.
  - apply reorder_matrix_rows; rewrite ?Rw; auto.
Qed.


(* ----------------------------------------------------------------- *)
(** *** Which layers the loop reaches *)

Lemma set_layer_length ls k l : length (set_layer ls k l) = length ls.
Proof.
  revert k. induction ls as [| x t IH]; intros [| k]; simpl; auto.
Qed.

Lemma nth_error_set_layer_other ls k l j :
  k <> j -> nth_error (set_layer ls k l) j = nth_error ls j.
Proof.
  revert k j. induction ls as [| x t IH]; intros [| k] [| j] H; simpl;
    try reflexivity; try congruence.
  apply IH. congruence.
Qed.

Lemma reorder_layer_some ls head_importance layer cur ls' :
  reorder_layer argsort ls head_importance layer cur = Some ls' ->
  layer < length ls /\ layer < length head_importance /\
  exists l, ls' = set_layer ls layer l.
Proof.
  unfold reorder_layer. intro H.
  destruct (nth_error head_importance layer) as [hs |] eqn:Eh;
    [| discriminate].
  destruct (nth_error ls layer) as [l |] eqn:El; [| discriminate].
  simpl in H.
  destruct (reorder_head _ _) as [attn |]; [| discriminate].
  destruct (reorder_neuron (linear1 l) _ 1) as [l1 |]; [| discriminate].
  destruct (reorder_neuron (linear2 l) _ 0) as [l2 |]; [| discriminate].
  simpl in H. injection H as <-.
  split; [apply nth_error_Some; congruence |].
  split; [apply nth_error_Some; congruence |]. eauto.
Qed.

Lemma reorder_layers_some neuron_importance :
  forall ls head_importance layer ls',
    reorder_layers argsort ls head_importance layer neuron_importance
    = Some ls' ->
    length ls' = length ls /\
    (neuron_importance <> [] ->
     layer + length neuron_importance <= length ls /\
     layer + length neuron_importance <= length head_importance) /\
    forall i, i < layer \/ layer + length neuron_importance <= i ->
              nth_error ls' i = nth_error ls i.
Proof.
  induction neuron_importance as [| cur rest IH];
    intros ls hi layer ls' H; simpl in H.
  - injection H as <-. repeat split; auto; congruence.
  - destruct (reorder_layer argsort ls hi layer cur) as [ls1 |] eqn:E1;
      [| discriminate].
    simpl in H.
    destruct (reorder_layer_some _ _ _ _ E1) as (L1 & L2 & l & ->).
    destruct (IH _ _ _ _ H) as (Len & Rng & Same).
    rewrite set_layer_length in Len, Rng.
    split; [exact Len |]. split.
    + intros _. simpl. destruct rest as [| c r]; [simpl; lia |].
      destruct Rng as [R1 R2]; [discriminate |]. simpl in *. lia.
    + intros i Hi. simpl in Hi. rewrite Same by lia.
      apply nth_error_set_layer_other. lia.
Qed.

(** X9. An entry of [neuron_importance] without a layer or without a row
    of [head_importance] makes [reorder_neuron_head] raise; it never
    skips the entry. *)
Theorem reorder_neuron_head_index_error (Input Output : Type)
    (model : Model Input Output) head_importance neuron_importance :
  length (layers model) < length neuron_importance \/
  length head_importance < length neuron_importance ->
  reorder_neuron_head argsort model head_importance neuron_importance = None.
Proof.
  intro H. unfold reorder_neuron_head.
  destruct (reorder_layers argsort (layers model) head_importance 0
              neuron_importance) as [ls' |] eqn:E; [| reflexivity].
  exfalso. destruct (reorder_layers_some _ _ _ _ E) as (_ & Rng & _).
  destruct neuron_importance as [| c r]; [simpl in H; lia |].
  destruct Rng as [R1 R2]; [discriminate |]. simpl in *. lia.
Qed.

(** X10. When [reorder_neuron_head] returns, the model has as many layers
    as before; the embeddings, the classifier and every layer behind the
    last entry of [neuron_importance] are the ones it had. *)
Theorem reorder_neuron_head_frame (Input Output : Type)
    (model model' : Model Input Output) head_importance neuron_importance :
  reorder_neuron_head argsort model head_importance neuron_importance
  = Some model' ->
  embeddings model' = embeddings model /\
  classifier model' = classifier model /\
  length (layers model') = length (layers model) /\
  forall i, length neuron_importance <= i ->
            nth_error (layers model') i = nth_error (layers model) i.
Proof.
  unfold reorder_neuron_head. intro H.
  destruct (reorder_layers argsort (layers model) head_importance 0
              neuron_importance) as [ls' |] eqn:E; [| discriminate].
  simpl in H. injection H as <-. simpl.
  destruct (reorder_layers_some _ _ _ _ E) as (Len & _ & Same).
  repeat split; auto.
Qed.

(* ----------------------------------------------------------------- *)
(** *** No weight is lost, and an ordered model stays as it is *)

Lemma select_cols_rows_permuted W index n :
  Permutation index (seq 0 n) ->
  Forall2 (fun r' r => length r = n -> Permutation r' r)
          (map (fun row => index_select tzero row index) W) W.
Proof.
  intro P. induction W as [| r W IH]; simpl; constructor; auto.
  intro L. apply index_select_perm. now rewrite L.
Qed.

(** X11. In every layer that has scores, the reordering only permutes:
    the rows of [linear2] and of the output projection are the old rows
    in another order, every full-width row of [linear1] holds its old
    entries in another order, and the bias of [linear2] is untouched. *)
Theorem reorder_neuron_head_permutes (Input Output : Type)
    (model : Model Input Output) head_importance neuron_importance :
  stack_fits (layers model) head_importance neuron_importance ->
  exists model',
    reorder_neuron_head argsort model head_importance neuron_importance
    = Some model' /\
    forall layer l head_scores neuron_scores,
      nth_error (layers model) layer = Some l ->
      nth_error head_importance layer = Some head_scores ->
      nth_error neuron_importance layer = Some neuron_scores ->
      exists l',
        nth_error (layers model') layer = Some l' /\
        Permutation (weight (linear2 l')) (weight (linear2 l)) /\
        Permutation (weight (out_proj (self_attn l')))
                    (weight (out_proj (self_attn l))) /\
        Forall2 (fun r' r => length r = length neuron_scores ->
                             Permutation r' r)
                (weight (linear1 l')) (weight (linear1 l)) /\
        bias (linear2 l') = bias (linear2 l).
Proof.
  intro F. eexists. split; [now apply reorder_neuron_head_spec |].
  intros layer l hs ns Hl Hh Hn. simpl.
  destruct (nth_error_reordered_stack _ _ _ _ F Hl Hh Hn)
    as [((_ & _ & _ & No & _) & Lh & _ & Rw & _) E].
  exists (reordered l hs ns). split; [exact E |].
  destruct (argsort_ok hs) as [Ph _]. destruct (argsort_ok ns) as [Pn _].
  rewrite Lh in Ph. simpl. repeat split.
  - apply index_select_perm. fold (nrows (weight (linear2 l))).
    now rewrite Rw.
  - apply index_select_perm.
    fold (nrows (weight (out_proj (self_attn l)))). rewrite No.
    now apply expand_heads_perm.
  - now apply select_cols_rows_permuted.
Qed.

Lemma select_rows_id lin :
  select_rows lin (seq 0 (nrows (weight lin))) = lin.
Proof.
  destruct lin as [W b]. unfold select_rows, nrows. simpl.
  now rewrite index_select_seq_all.
Qed.

Lemma select_cols_id lin n :
  Forall (fun r => length r = n) (weight lin) -> bias_fits lin n ->
  select_cols lin (seq 0 n) = lin.
Proof.
  destruct lin as [W b]. unfold select_cols, bias_fits. simpl.
  intros F B. f_equal.
  - induction F as [| r W Hr _ IH]; simpl; [reflexivity |].
    rewrite IH. f_equal. rewrite <- Hr. apply index_select_seq_all.
  - destruct b as [b |]; simpl; [| reflexivity].
    f_equal. rewrite <- B. apply index_select_seq_all.
Qed.

(** A layer whose heads and neurons are in strictly descending order of
    importance already, with weights of full rectangular shape. *)
Definition layer_in_order (l : EncoderLayer)
    (head_scores neuron_scores : list Q) : Prop :=
  let w := num_heads (self_attn l) * head_dim (self_attn l) in
  layer_fits l head_scores neuron_scores /\
  Forall (fun r => length r = w) (weight (q_proj (self_attn l))) /\
  Forall (fun r => length r = w) (weight (k_proj (self_attn l))) /\
  Forall (fun r => length r = w) (weight (v_proj (self_attn l))) /\
  Forall (fun r => length r = length neuron_scores) (weight (linear1 l)) /\
  Argsort.strictly_descending head_scores /\
  Argsort.strictly_descending neuron_scores.

Fixpoint stack_in_order (ls : list EncoderLayer)
    (head_importance neuron_importance : list (list Q)) : Prop :=
  match neuron_importance with
  | [] => True
  | neuron_scores :: ni =>
      match ls, head_importance with
      | l :: ls', head_scores :: hi =>
          layer_in_order l head_scores neuron_scores /\
          stack_in_order ls' hi ni
      | _, _ => False
      end
  end.

Lemma reordered_in_order l head_scores neuron_scores :
  layer_in_order l head_scores neuron_scores ->
  reordered l head_scores neuron_scores = l.
Proof.
  intros (((Fq & Fk & Fv & No & _) & Lh & (F1 & N2 & _))
          & Rq & Rk & Rv & R1 & Sh & Sn).
  unfold reordered, select_heads.
  rewrite (Argsort.strictly_descending_argsort argsort_ok Sh).
  rewrite (Argsort.strictly_descending_argsort argsort_ok Sn).
  rewrite Lh, expand_heads_seq.
  rewrite (@select_cols_id _ _ Rq (proj2 Fq)),
    (@select_cols_id _ _ Rk (proj2 Fk)),
    (@select_cols_id _ _ Rv (proj2 Fv)),
    (@select_cols_id _ _ R1 (proj2 F1)).
  rewrite <- No at 1. rewrite <- N2. rewrite !select_rows_id.
  destruct l as [[n a q k v o] l1 l2 n1 n2 act]. reflexivity.
Qed.

(** X12. A model whose heads and neurons are in strictly descending order
    of importance already comes back unchanged. *)
Theorem reorder_neuron_head_in_order (Input Output : Type)
    (model : Model Input Output) head_importance neuron_importance :
  stack_in_order (layers model) head_importance neuron_importance ->
  reorder_neuron_head argsort model head_importance neuron_importance
  = Some model.
Proof.
  intro O.
  assert (F : stack_fits (layers model) head_importance neuron_importance).
  { revert O. generalize (layers model) as ls.
    revert head_importance neuron_importance.
    intros hi ni ls. revert hi ni.
    induction ls as [| l ls IH]; intros hi ni O.
    - now destruct ni, hi.
    - destruct ni as [| ns ni]; [exact I |].
      destruct hi as [| hs hi]; [contradiction |].
      destruct O as [[Fl _] O]. split; auto. }
  rewrite (reorder_neuron_head_spec _ _ _ F).
  assert (E : reordered_stack (layers model) head_importance
                              neuron_importance = layers model).
  { revert O. clear F. generalize (layers model) as ls.
    revert head_importance neuron_importance.
    intros hi ni ls. revert hi ni.
    induction ls as [| l ls IH]; intros hi ni O.
    - now destruct ni, hi.
    - destruct ni as [| ns ni]; [reflexivity |].
      destruct hi as [| hs hi]; [contradiction |].
      destruct O as [Ol O]. simpl. rewrite (reordered_in_order Ol).
      f_equal. now apply IH. }
  rewrite E. now destruct model.
Qed.

End Preservation.

End Carrier.

(* ----------------------------------------------------------------- *)
(** *** A model with 2 layers, 4 heads and 8 neurons, over [Z] *)

Definition demo_matrix (r c : nat) (seed : Z) : list (list Z) :=
  map (fun i =>
         map (fun j =>
                ((seed + Z.of_nat i) * Z.of_nat (j + 2)
                 + Z.of_nat (i * j)) mod 11 - 5)%Z
             (seq 0 c))
      (seq 0 r).

Definition demo_linear (r c : nat) (seed : Z) : Linear Z :=
  {| weight := demo_matrix r c seed;
     bias := Some (hd [] (demo_matrix 1 c (seed + 3))) |}.

Definition demo_layer (seed : Z) : EncoderLayer Z :=
  {| self_attn :=
       {| num_heads := 4; head_dim := 1;
          q_proj := demo_linear 4 4 seed;
          k_proj := demo_linear 4 4 (seed + 1);
          v_proj := demo_linear 4 4 (seed + 2);
          out_proj := demo_linear 4 4 (seed + 3) |};
     linear1 := demo_linear 4 8 (seed + 4);
     linear2 := demo_linear 8 4 (seed + 5);
     norm1 := map (fun e => e mod 101)%Z;
     norm2 := map (fun e => e mod 103)%Z;
     activation := Z.max 0 |}.

Definition demo_model : Model Z (list (list Z)) (list (list Z)) :=
  {| embeddings := fun X => X;
     layers := [demo_layer 1; demo_layer 7];
     classifier := fun X => X |}.

(** One head of the demonstration: each value row scaled by the product
    of its query and key rows. *)
Definition demo_attend (Qh Kh Vh : list (list Z)) : list (list Z) :=
  map (fun p => map (Z.mul (dot 0%Z Z.add Z.mul (fst p) (fst (snd p))))
                    (snd (snd p)))
      (combine Qh (combine Kh Vh)).

Definition demo_head_importance : list (list Q) :=
  [[1#10; 9#10; 3#10; 7#10]; [5#10; 2#10; 5#10; 8#10]]%Q.

Definition demo_neuron_importance : list (list Q) :=
  [[3#10; 1#10; 4#10; 1#10; 5#10; 9#10; 2#10; 6#10];
   [2#10; 7#10; 1#10; 8#10; 2#10; 8#10; 1#10; 8#10]]%Q.

(** The score list of the concrete case. *)
Definition four_scores : list Q := [1#10; 9#10; 3#10; 7#10]%Q.

(** Four heads of width one whose query weights carry the number of the
    head they belong to. *)
Definition tagged_heads : MultiHeadAttention Z :=
  {| num_heads := 4; head_dim := 1;
     q_proj := {| weight := [[0; 1; 2; 3]]%Z; bias := None |};
     k_proj := {| weight := [[0; 1; 2; 3]]%Z; bias := None |};
     v_proj := {| weight := [[0; 1; 2; 3]]%Z; bias := None |};
     out_proj := {| weight := [[0]; [1]; [2]; [3]]%Z; bias := None |} |}.


Lemma demo_attend_shape a (Qh Kh Vh : list (list Z)) :
  length Kh = length Qh -> length Vh = length Qh ->
  Forall (fun r => length r = a) Vh ->
  length (demo_attend Qh Kh Vh) = length Qh /\
  Forall (fun r => length r = a) (demo_attend Qh Kh Vh).
Proof.
  intros LK LV F. unfold demo_attend. split.
  - rewrite length_map, !length_combine. lia.
  - apply Forall_forall. intros r Hr. apply in_map_iff in Hr.
    destruct Hr as [[q [k v]] [<- Hin]]. simpl.
    rewrite length_map. rewrite Forall_forall in F. apply F.
    apply in_combine_r in Hin. now apply in_combine_r in Hin.
Qed.

Lemma demo_model_fits :
  stack_fits (layers demo_model) demo_head_importance
             demo_neuron_importance.
Proof.
  unfold stack_fits, layer_fits, attn_fits, ffn_fits, proj_fits,
    rectangular, bias_fits. simpl.
  repeat split; repeat constructor.
Qed.

Lemma four_scores_no_ties : Argsort.no_ties four_scores.
Proof.
  intros i j Hi Hj. simpl in Hi, Hj.
  do 4 (destruct i as [| i]; [
    do 4 (destruct j as [| j]; [
      first [ reflexivity | intro E; vm_compute in E; discriminate ] |]);
    lia |]).
  lia.
Qed.

(** Whatever sort meets the contract, the concrete case has one answer. *)
Lemma four_scores_order argsort :
  Argsort.argsort_spec argsort -> argsort four_scores = [1; 3; 2; 0].
Proof.
  intro A.
  apply (Argsort.is_argsort_unique four_scores_no_ties (A four_scores)).
  exact (Argsort.argsort_by_spec true four_scores).
Qed.

(** C1, on the demonstration model: the shapes fit, the reordering
    returns, and the full-width outputs agree. *)
Lemma reorder_neuron_head_preserves_forward_witness :
  exists model',
    reorder_neuron_head 0%Z Argsort.argsort_stable demo_model
      demo_head_importance demo_neuron_importance = Some model' /\
    forall input,
      forward 0%Z Z.add Z.mul demo_attend model' input
      = forward 0%Z Z.add Z.mul demo_attend demo_model input.
Proof.
  apply (@reorder_neuron_head_preserves_forward Z 0%Z Z.add Z.mul demo_attend
           Z.add_comm Z.add_assoc demo_attend_shape
           Argsort.argsort_stable (Argsort.argsort_by_spec true)).
  exact demo_model_fits.
Defined.

(** C4.  With the descending sort the spec describes for
    [paddle.argsort], every layer is reordered by one head order and one
    neuron order; each is a permutation of the positions that lists the
    scores in descending order, equal scores in the order of their
    original index, and it is the only such order; the neuron order is
    the one order used for [linear1] along [dim=1] and for [linear2]
    along [dim=0].  For the importance scores [0.1, 0.9, 0.3, 0.7] the
    head order is [1, 3, 2, 0] (for this sort as for every descending
    sort, there being no equal scores), which is also the order in which
    the tagged query weights come out. *)
Theorem reorder_descending_joint :
  (forall (T : Type) (tzero : T) (Input Output : Type)
          (model : Model T Input Output) head_importance neuron_importance,
      stack_fits (layers model) head_importance neuron_importance ->
      exists model',
        reorder_neuron_head tzero Argsort.argsort_stable model
                            head_importance neuron_importance
        = Some model' /\
        forall layer l head_scores neuron_scores,
          nth_error (layers model) layer = Some l ->
          nth_error head_importance layer = Some head_scores ->
          nth_error neuron_importance layer = Some neuron_scores ->
          exists idx_heads idx_neurons l',
            nth_error (layers model') layer = Some l' /\
            Argsort.is_argsort head_scores idx_heads /\
            Argsort.ties_by_index head_scores idx_heads /\
            Argsort.is_argsort neuron_scores idx_neurons /\
            Argsort.ties_by_index neuron_scores idx_neurons /\
            reorder_head tzero (self_attn l) idx_heads
            = Some (self_attn l') /\
            reorder_neuron tzero (linear1 l) idx_neurons 1
            = Some (linear1 l') /\
            reorder_neuron tzero (linear2 l) idx_neurons 0
            = Some (linear2 l')) /\
  (forall scores idx,
      Argsort.is_argsort scores idx -> Argsort.ties_by_index scores idx ->
      idx = Argsort.argsort_stable scores) /\
  (forall argsort,
      Argsort.argsort_spec argsort -> argsort four_scores = [1; 3; 2; 0]) /\
  Argsort.argsort_stable four_scores = [1; 3; 2; 0] /\
  option_map (fun m => weight (q_proj m))
             (reorder_head 0%Z tagged_heads
                           (Argsort.argsort_stable four_scores))
  = Some [[1; 3; 2; 0]%Z].
Proof.
  split; [| split; [| split; [| split]]].
  - intros T tzero Input Output model hi ni F.
    destruct (reorder_neuron_head_layers tzero
                (Argsort.argsort_by_spec true) model hi ni F)
      as (model' & E & H).
    exists model'. split; [exact E |].
    intros layer l hs ns Hl Hh Hn.
    destruct (H layer l hs ns Hl Hh Hn) as (l' & El & Rh & R1 & R2).
    exists (Argsort.argsort_stable hs), (Argsort.argsort_stable ns), l'.
    split; [exact El |].
    split; [apply (Argsort.argsort_by_spec true) |].
    split; [apply Argsort.argsort_stable_ties |].
    split; [apply (Argsort.argsort_by_spec true) |].
    split; [apply Argsort.argsort_stable_ties |].
    repeat split; assumption.
  - exact Argsort.stable_argsort_unique.
  - exact four_scores_order.
  - reflexivity.
  - reflexivity.
Qed.

(** C4 on the demonstration model, whose second layer has two heads of
    importance 0.5, at the positions 0 and 2: they come out in this
    order, behind the head of importance 0.8. *)
Lemma reorder_descending_joint_witness :
  exists model',
    reorder_neuron_head 0%Z Argsort.argsort_stable demo_model
      demo_head_importance demo_neuron_importance = Some model' /\
    exists idx_heads idx_neurons l',
      nth_error (layers model') 1 = Some l' /\
      Argsort.is_argsort [5#10; 2#10; 5#10; 8#10]%Q idx_heads /\
      Argsort.ties_by_index [5#10; 2#10; 5#10; 8#10]%Q idx_heads /\
      idx_heads = [3; 0; 2; 1] /\
      reorder_head 0%Z (self_attn (demo_layer 7)) idx_heads
      = Some (self_attn l') /\
      reorder_neuron 0%Z (linear1 (demo_layer 7)) idx_neurons 1
      = Some (linear1 l') /\
      reorder_neuron 0%Z (linear2 (demo_layer 7)) idx_neurons 0
      = Some (linear2 l').
Proof.
  destruct reorder_descending_joint as (H & U & _).
  destruct (H Z 0%Z _ _ demo_model _ _ demo_model_fits) as (model' & E & L).
  exists model'. split; [exact E |].
  destruct (L 1 (demo_layer 7) _ _ eq_refl eq_refl eq_refl)
    as (ih & inn & l' & El & Ah & Th & _ & _ & Rh & R1 & R2).
  exists ih, inn, l'. repeat split; try assumption.
  - apply Ah.
  - apply Ah.
  - rewrite (U _ _ Ah Th). reflexivity.
Defined.



(* ----------------------------------------------------------------- *)
(** *** The further properties on the demonstration model *)

(** Scores in strictly descending order for both layers. *)
Definition ordered_head_importance : list (list Q) :=
  [[9#10; 7#10; 3#10; 1#10]; [8#10; 5#10; 4#10; 2#10]]%Q.

Definition ordered_neuron_importance : list (list Q) :=
  [[8#1; 7#1; 6#1; 5#1; 4#1; 3#1; 2#1; 1#1];
   [9#1; 8#1; 7#1; 5#1; 4#1; 3#1; 2#1; 1#1]]%Q.

Lemma demo_model_in_order :
  stack_in_order (layers demo_model) ordered_head_importance
                 ordered_neuron_importance.
Proof.
  unfold stack_in_order, layer_in_order, layer_fits, attn_fits, ffn_fits,
    proj_fits, rectangular, bias_fits, Argsort.strictly_descending. simpl.
  repeat split; repeat constructor.
Qed.

(** Three score lists for a model of two layers. *)
Lemma reorder_neuron_head_index_error_witness :
  reorder_neuron_head 0%Z Argsort.argsort_stable demo_model
    demo_head_importance
    (demo_neuron_importance ++ [[1#10; 2#10]]%Q) = None.
Proof.
  apply (reorder_neuron_head_index_error 0%Z Argsort.argsort_stable
           demo_model).
  left. simpl. lia.
Defined.

(** Scores for the first layer only. *)
Definition first_layer_neuron_importance : list (list Q) :=
  [[3#10; 1#10; 4#10; 1#10; 5#10; 9#10; 2#10; 6#10]]%Q.

(** With scores for the first layer only, the second layer is kept. *)
Lemma reorder_neuron_head_frame_witness :
  exists model',
    reorder_neuron_head 0%Z Argsort.argsort_stable demo_model
      [four_scores] first_layer_neuron_importance = Some model' /\
    length (layers model') = 2 /\
    nth_error (layers model') 1 = Some (demo_layer 7).
Proof.
  destruct (reorder_neuron_head 0%Z Argsort.argsort_stable demo_model
              [four_scores] first_layer_neuron_importance)
    as [model' |] eqn:E; [| vm_compute in E; discriminate E].
  exists model'. split; [reflexivity |].
  destruct (reorder_neuron_head_frame 0%Z Argsort.argsort_stable
              demo_model _ _ E) as (_ & _ & L & Rest).
  split; [exact L |]. apply (Rest 1). simpl. lia.
Defined.

Lemma reorder_neuron_head_permutes_witness :
  exists model',
    reorder_neuron_head 0%Z Argsort.argsort_stable demo_model
      demo_head_importance demo_neuron_importance = Some model' /\
    exists l',
      nth_error (layers model') 0 = Some l' /\
      Permutation (weight (linear2 l')) (weight (linear2 (demo_layer 1))) /\
      bias (linear2 l') = bias (linear2 (demo_layer 1)).
Proof.
  destruct (reorder_neuron_head_permutes 0%Z (Argsort.argsort_by_spec true)
              demo_model _ _ demo_model_fits) as (model' & E & H).
  exists model'. split; [exact E |].
  destruct (H 0 (demo_layer 1) _ _ eq_refl eq_refl eq_refl)
    as (l' & E' & P2 & _ & _ & B).
  exists l'. auto.
Defined.

Lemma reorder_neuron_head_in_order_witness :
  reorder_neuron_head 0%Z Argsort.argsort_stable demo_model
    ordered_head_importance ordered_neuron_importance = Some demo_model.
Proof.
  apply (reorder_neuron_head_in_order 0%Z (Argsort.argsort_by_spec true)).
  exact demo_model_in_order.
Defined.

End Tensors.

(* ================================================================= *)
(** ** [soft_cross_entropy] and the loss of one width *)

Module Loss.

Local Open Scope R_scope.

Definition rsum (l : list R) : R := fold_right Rplus 0 l.

(** [paddle.mean] of a one-dimensional tensor. *)
Definition mean (l : list R) : R := rsum l / INR (length l).

(** [F.softmax(x, axis=-1)] on one row of logits. *)
Definition softmax (x : list R) : list R :=
  map (fun xi => exp xi / rsum (map exp x)) x.

(** [F.log_softmax(x, axis=-1)] on one row of logits. *)
Definition log_softmax (x : list R) : list R :=
  map (fun xi => ln (exp xi / rsum (map exp x))) x.

(** Element-wise product of two rows. *)
Definition rmul (x y : list R) : list R :=
  map (fun p => fst p * snd p) (combine x y).

(** The function of the script; [inp] and [target] hold one row of logits
    per example. *)
Definition soft_cross_entropy (inp target : list (list R)) : R :=
  let inp_likelihood := map log_softmax inp in
  let target_prob := map softmax target in
  -1 * mean (map (fun p => rsum (rmul (fst p) (snd p)))
                 (combine inp_likelihood target_prob)).

(** [loss = rep_loss + args.lambda_logit * logit_loss] for one width. *)
Definition width_loss (lambda_logit rep_loss : R)
    (logits teacher_logits : list (list R)) : R :=
  let logit_loss := soft_cross_entropy logits teacher_logits in
  rep_loss + lambda_logit * logit_loss.

(** The soft-label loss in the words of the design: the expectation of the
    student's log-softmax under the teacher's softmax distribution, summed
    over the classes, averaged over the examples, negated. *)
Definition expectation (prob value : list R) : R :=
  rsum (map (fun p => fst p * snd p) (combine prob value)).

Definition soft_label_loss (student teacher : list (list R)) : R :=
  - (rsum (map (fun p => expectation (softmax (snd p))
                                     (log_softmax (fst p)))
               (combine student teacher))
     / INR (length (combine student teacher))).

Lemma rmul_expectation (x y : list R) : rsum (rmul x y) = expectation y x.
Proof.
  unfold rmul, expectation. revert y.
  induction x as [| a x IH]; intros [| b y]; simpl; try reflexivity.
  rewrite IH. ring.
Qed.

Lemma combine_map_map (A B C D : Type) (f : A -> C) (g : B -> D) l l' :
  combine (map f l) (map g l')
  = map (fun p => (f (fst p), g (snd p))) (combine l l').
Proof.
  revert l'. induction l as [| a l IH]; intros [| b l']; simpl;
    try reflexivity.
  now rewrite IH.
Qed.

(** With at least one class the log-softmax is the logit minus the
    logarithm of the sum of the exponentials. *)
Lemma rsum_exp_pos (x : list R) : x <> [] -> 0 < rsum (map exp x).
Proof.
  destruct x as [| a x]; [congruence | intros _].
  simpl. assert (0 <= rsum (map exp x)).
  { induction x as [| b x IH]; simpl; [lra |].
    pose proof (exp_pos b). lra. }
  pose proof (exp_pos a). lra.
Qed.

Lemma log_softmax_lse (x : list R) :
  log_softmax x = map (fun xi => xi - ln (rsum (map exp x))) x.
Proof.
  unfold log_softmax. apply map_ext_in. intros xi Hi.
  assert (P : 0 < rsum (map exp x))
    by (apply rsum_exp_pos; intro E; subst; contradiction).
  unfold Rdiv. rewrite ln_mult.
  - rewrite ln_exp, ln_Rinv by exact P. ring.
  - apply exp_pos.
  - now apply Rinv_0_lt_compat.
Qed.

(** C6. [soft_cross_entropy] is the negated mean over the examples of the
    sum over the classes of the student's log-softmax weighted by the
    teacher's softmax, and the loss of one width is the representation
    loss plus [lambda_logit] times that soft-label loss. *)
Theorem soft_cross_entropy_is_soft_label_loss
    (lambda_logit rep_loss : R) (student teacher : list (list R)) :
  soft_cross_entropy student teacher = soft_label_loss student teacher /\
  width_loss lambda_logit rep_loss student teacher
  = rep_loss + lambda_logit * soft_label_loss student teacher.
Proof.
  assert (E : soft_cross_entropy student teacher
              = soft_label_loss student teacher).
  { unfold soft_cross_entropy, soft_label_loss, mean.
    rewrite combine_map_map, map_map, length_map.
    replace (map (fun x => rsum (rmul (fst (log_softmax (fst x),
                                            softmax (snd x)))
                                      (snd (log_softmax (fst x),
                                            softmax (snd x)))))
                 (combine student teacher))
      with (map (fun p => expectation (softmax (snd p))
                                      (log_softmax (fst p)))
                (combine student teacher)).
    - ring.
    - apply map_ext. intro p. simpl. now rewrite rmul_expectation. }
  split; [exact E |]. unfold width_loss. now rewrite E.
Qed.

(** Two classes, student and teacher both undecided: the loss is [ln 2]. *)
Example soft_cross_entropy_uniform :
  soft_cross_entropy [[0; 0]] [[0; 0]] = ln 2.
Proof.
  unfold soft_cross_entropy, mean, rmul. simpl.
  rewrite exp_0.
  replace (1 / (1 + (1 + 0))) with (/ 2) by lra.
  rewrite ln_Rinv by lra. lra.
Qed.

(* ----------------------------------------------------------------- *)
(** *** Properties of the soft-label loss *)

Lemma rsum_scale (c : R) (l : list R) :
  rsum (map (Rmult c) l) = c * rsum l.
Proof.
  induction l as [| a l IH]; simpl; [ring |]. rewrite IH. ring.
Qed.

Lemma exp_shift (c : R) (x : list R) :
  map exp (map (Rplus c) x) = map (Rmult (exp c)) (map exp x).
Proof. rewrite !map_map. apply map_ext. intro a. apply exp_plus. Qed.

Lemma ratio_shift (c xi : R) (x : list R) :
  exp (c + xi) / rsum (map exp (map (Rplus c) x))
  = exp xi / rsum (map exp x).
Proof.
  rewrite exp_shift, rsum_scale, exp_plus.
  unfold Rdiv. rewrite Rinv_mult.
  pose proof (exp_pos c) as P.
  transitivity ((exp c * / exp c) * (exp xi * / rsum (map exp x)));
    [ring |].
  rewrite Rinv_r by lra. ring.
Qed.

Lemma softmax_shift (c : R) (x : list R) :
  softmax (map (Rplus c) x) = softmax x.
Proof.
  unfold softmax. rewrite map_map. apply map_ext. intro xi.
  apply ratio_shift.
Qed.

Lemma log_softmax_shift (c : R) (x : list R) :
  log_softmax (map (Rplus c) x) = log_softmax x.
Proof.
  unfold log_softmax. rewrite map_map. apply map_ext. intro xi.
  now rewrite ratio_shift.
Qed.

(** X13. Adding a constant to all logits of an example, a different one
    for every example and for student and teacher, leaves the loss as it
    is. *)
Theorem soft_cross_entropy_shift (f g : list R -> R)
    (inp target : list (list R)) :
  soft_cross_entropy (map (fun row => map (Rplus (f row)) row) inp)
                     (map (fun row => map (Rplus (g row)) row) target)
  = soft_cross_entropy inp target.
Proof.
  unfold soft_cross_entropy. rewrite !map_map.
  replace (map (fun x => log_softmax (map (Rplus (f x)) x)) inp)
    with (map log_softmax inp)
    by (apply map_ext; intro; now rewrite log_softmax_shift).
  replace (map (fun x => softmax (map (Rplus (g x)) x)) target)
    with (map softmax target)
    by (apply map_ext; intro; now rewrite softmax_shift).
  reflexivity.
Qed.

Lemma exp_le_rsum (xi : R) (x : list R) :
  In xi x -> exp xi <= rsum (map exp x).
Proof.
  induction x as [| a x IH]; simpl; [contradiction |].
  assert (0 <= rsum (map exp x)).
  { clear. induction x as [| b x IH]; simpl; [lra |].
    pose proof (exp_pos b). lra. }
  intros [-> | H']; [lra |].
  specialize (IH H'). pose proof (exp_pos a). lra.
Qed.

Lemma softmax_nonneg (x : list R) : Forall (fun p => 0 <= p) (softmax x).
Proof.
  unfold softmax. apply Forall_forall. intros p Hp.
  apply in_map_iff in Hp. destruct Hp as [xi [<- Hi]].
  assert (P : 0 < rsum (map exp x))
    by (apply rsum_exp_pos; intro E; subst; contradiction).
  pose proof (exp_pos xi). unfold Rdiv.
  apply Rmult_le_pos; [lra |]. left. now apply Rinv_0_lt_compat.
Qed.

Lemma log_softmax_nonpos (x : list R) :
  Forall (fun l => l <= 0) (log_softmax x).
Proof.
  unfold log_softmax. apply Forall_forall. intros l Hl.
  apply in_map_iff in Hl. destruct Hl as [xi [<- Hi]].
  assert (P : 0 < rsum (map exp x))
    by (apply rsum_exp_pos; intro E; subst; contradiction).
  pose proof (exp_le_rsum _ _ Hi) as Le. pose proof (exp_pos xi) as Pe.
  assert (R1 : 0 < exp xi / rsum (map exp x))
    by (unfold Rdiv; apply Rmult_lt_0_compat; auto;
        now apply Rinv_0_lt_compat).
  assert (R2 : exp xi / rsum (map exp x) <= 1).
  { unfold Rdiv. apply Rmult_le_reg_r with (r := rsum (map exp x)); auto.
    rewrite Rmult_assoc, Rinv_l by lra. lra. }
  destruct R2 as [R2 | R2]; [| rewrite R2, ln_1; lra].
  rewrite <- ln_1. left. now apply ln_increasing.
Qed.

Lemma rsum_rmul_nonpos (l p : list R) :
  Forall (fun a => a <= 0) l -> Forall (fun a => 0 <= a) p ->
  rsum (rmul l p) <= 0.
Proof.
  unfold rmul. intro Fl. revert p.
  induction Fl as [| a l Ha _ IH]; intros p Fp; simpl; [lra |].
  destruct Fp as [| b p Hb Fp]; simpl; [lra |].
  specialize (IH p Fp). nra.
Qed.

Lemma rsum_terms_nonpos (l : list (list R * list R)) :
  rsum (map (fun q => rsum (rmul (log_softmax (fst q)) (softmax (snd q))))
            l) <= 0.
Proof.
  induction l as [| q l IH]; simpl; [lra |].
  pose proof (rsum_rmul_nonpos (log_softmax_nonpos (fst q))
                               (softmax_nonneg (snd q))).
  lra.
Qed.

(** X14. On a batch with at least one example the soft-label loss is not
    negative, and with a non-negative [lambda_logit] the loss of a width
    is at least the representation loss. *)
Theorem soft_cross_entropy_nonneg (lambda_logit rep_loss : R)
    (inp target : list (list R)) :
  combine inp target <> [] -> 0 <= lambda_logit ->
  0 <= soft_cross_entropy inp target /\
  rep_loss <= width_loss lambda_logit rep_loss inp target.
Proof.
  intros Hne Hl.
  assert (N : 0 <= soft_cross_entropy inp target).
  { unfold soft_cross_entropy, mean. rewrite combine_map_map, map_map.
    rewrite length_map.
    simpl. pose proof (rsum_terms_nonpos (combine inp target)) as S.
    assert (P : 0 < INR (length (combine inp target))).
    { apply lt_0_INR. destruct (combine inp target); [congruence |].
      simpl. lia. }
    apply Rinv_0_lt_compat in P. unfold Rdiv. nra. }
  split; [exact N |]. unfold width_loss. nra.
Qed.

Lemma softmax_pos (x : list R) : Forall (fun p => 0 < p) (softmax x).
Proof.
  unfold softmax. apply Forall_forall. intros p Hp.
  apply in_map_iff in Hp. destruct Hp as [xi [<- Hi]].
  assert (P : 0 < rsum (map exp x))
    by (apply rsum_exp_pos; intro E; subst; contradiction).
  unfold Rdiv. apply Rmult_lt_0_compat; [apply exp_pos |].
  now apply Rinv_0_lt_compat.
Qed.

Lemma softmax_sums_to_one (x : list R) : x <> [] -> rsum (softmax x) = 1.
Proof.
  intro Hne. pose proof (rsum_exp_pos Hne) as P.
  unfold softmax.
  replace (map (fun xi => exp xi / rsum (map exp x)) x)
    with (map (Rmult (/ rsum (map exp x))) (map exp x)).
  - rewrite rsum_scale. apply Rinv_l. lra.
  - rewrite map_map. apply map_ext. intro a. unfold Rdiv. ring.
Qed.

Lemma log_softmax_ln (x : list R) : log_softmax x = map ln (softmax x).
Proof. unfold log_softmax, softmax. now rewrite map_map. Qed.

Lemma ln_difference (p q : R) :
  0 < p -> 0 < q -> p * (ln q - ln p) <= q - p.
Proof.
  intros Hp Hq. pose proof (exp_ineq1_le (ln q - ln p)) as E.
  replace (exp (ln q - ln p)) with (q * / p) in E.
  - assert (H : p * (1 + (ln q - ln p)) <= p * (q * / p))
      by (apply Rmult_le_compat_l; lra).
    replace (p * (q * / p)) with q in H by (field; lra). lra.
  - unfold Rminus. rewrite exp_plus, exp_Ropp, !exp_ln; auto.
Qed.

(** Gibbs' inequality, in the form the loss uses. *)
Lemma gibbs (p : list R) :
  forall q, length p = length q ->
    Forall (fun a => 0 < a) p -> Forall (fun a => 0 < a) q ->
    rsum (rmul (map ln q) p) - rsum (rmul (map ln p) p)
    <= rsum q - rsum p.
Proof.
  unfold rmul.
  induction p as [| a p IH]; intros [| b q] L Fp Fq; simpl in *;
    try discriminate; [lra |].
  inversion Fp as [| ? ? Ha Fp']; subst.
  inversion Fq as [| ? ? Hb Fq']; subst.
  specialize (IH q ltac:(lia) Fp' Fq').
  pose proof (ln_difference Ha Hb). lra.
Qed.

Lemma row_loss_minimal (s t : list R) :
  length s = length t ->
  rsum (rmul (log_softmax s) (softmax t))
  <= rsum (rmul (log_softmax t) (softmax t)).
Proof.
  intro L. destruct t as [| b t].
  - destruct s; [simpl; lra | discriminate].
  - destruct s as [| a s]; [discriminate |].
    rewrite !log_softmax_ln.
    pose proof (@gibbs (softmax (b :: t)) (softmax (a :: s))) as G.
    rewrite !softmax_sums_to_one in G by discriminate.
    unfold softmax at 1 2 in G. rewrite !length_map in G.
    specialize (G (eq_sym L) (softmax_pos _) (softmax_pos _)). lra.
Qed.

(** X15. For student and teacher logits of the same shape, on a batch
    with at least one example, the soft-label loss is smallest when the
    student's logits are the teacher's: it is never below the loss of the
    teacher against itself. *)
Theorem soft_cross_entropy_minimal (inp target : list (list R)) :
  inp <> [] ->
  Forall2 (fun s t => length s = length t) inp target ->
  soft_cross_entropy target target <= soft_cross_entropy inp target.
Proof.
  intros Hne F. unfold soft_cross_entropy, mean.
  rewrite !combine_map_map, !map_map, !length_map. simpl.
  assert (L : length (combine target target) = length (combine inp target)).
  { rewrite !length_combine. apply Forall2_length in F. lia. }
  rewrite L.
  assert (S : rsum (map (fun x => rsum (rmul (log_softmax (fst x))
                                             (softmax (snd x))))
                        (combine inp target))
              <= rsum (map (fun x => rsum (rmul (log_softmax (fst x))
                                                (softmax (snd x))))
                           (combine target target))).
  { clear L Hne. induction F as [| s t inp target Hst _ IH]; simpl; [lra |].
    pose proof (@row_loss_minimal s t Hst). lra. }
  assert (P : 0 < INR (length (combine inp target))).
  { apply lt_0_INR. destruct F; [congruence |]. simpl. lia. }
  apply Rinv_0_lt_compat in P. unfold Rdiv. nra.
Qed.

(** The loss on one example with two classes. *)
Lemma soft_cross_entropy_nonneg_witness :
  0 <= soft_cross_entropy [[0; 1]] [[1; 0]] /\
  3 <= width_loss (1 / 2) 3 [[0; 1]] [[1; 0]].
Proof.
  apply (@soft_cross_entropy_nonneg (1 / 2) 3 [[0; 1]] [[1; 0]]).
  - discriminate.
  - lra.
Defined.

Lemma soft_cross_entropy_minimal_witness :
  soft_cross_entropy [[1; 0]] [[1; 0]]
  <= soft_cross_entropy [[0; 1]] [[1; 0]].
Proof.
  apply (@soft_cross_entropy_minimal [[0; 1]] [[1; 0]]).
  - discriminate.
  - repeat constructor.
Defined.

End Loss.

(* ================================================================= *)
(** ** [evaluate] and the mode of the model *)

Module Eval.

(** [model.training]: set by [model.train()], cleared by [model.eval()]. *)
Inductive mode : Type := Training | Inference.

(** What a model call returns: the logits, or a tuple led by them. *)
Inductive model_output (Logits : Type) : Type :=
| Plain (logits : Logits)
| Tupled (logits : Logits) (others : list Logits).

Arguments Plain {Logits} logits.
Arguments Tupled {Logits} logits others.

Section Evaluate.

Variables Batch Logits Correct Metric Res : Type.

(** The model on one batch; [None] when the call raises. *)
Variable call_model : Batch -> option (model_output Logits).

(** The metric object: [reset], [compute], [update], [accumulate]. *)
Variable metric_reset : Metric -> Metric.
Variable metric_compute : Logits -> Batch -> Correct.
Variable metric_update : Metric -> Correct -> Metric.
Variable metric_accumulate : Metric -> Res.

(** The model's mode and the metric when [evaluate] is left, and the
    result it returns; [result = None] when an error has been raised. *)
Record outcome : Type := mkOutcome {
  mode_after : mode;
  metric_after : Metric;
  result : option Res
}.

(** [for i, batch in enumerate(data_loader)] and what follows it.  An error
    leaves the loop and the function at once, with the model as it is. *)
Fixpoint evaluate_loop (model_mode : mode) (metric : Metric)
    (data_loader : list Batch) : outcome :=
  match data_loader with
  | [] =>
      let res := metric_accumulate metric in
      (* model.train() *)
      let model_mode := Training in
      {| mode_after := model_mode; metric_after := metric;
         result := Some res |}
  | batch :: rest =>
      match call_model batch with
      | None =>
          {| mode_after := model_mode; metric_after := metric;
             result := None |}
      | Some out =>
          let logits := match out with
                        | Plain l => l
                        | Tupled l _ => l
                        end in
          let correct := metric_compute logits batch in
          evaluate_loop model_mode (metric_update metric correct) rest
      end
  end.

(** [evaluate(model, metric, data_loader, width_mult)]; [model_mode] is the
    mode the model is in when the call is made. *)
Definition evaluate (model_mode : mode) (metric : Metric)
    (data_loader : list Batch) : outcome :=
  (* model.eval() *)
  let model_mode := Inference in
  (* metric.reset() *)
  let metric := metric_reset metric in
  evaluate_loop model_mode metric data_loader.

(** No batch makes the model raise. *)
Definition all_batches_run (data_loader : list Batch) : bool :=
  forallb (fun b => match call_model b with Some _ => true | None => false end)
          data_loader.

Lemma evaluate_loop_mode model_mode metric data_loader :
  (all_batches_run data_loader = true ->
   mode_after (evaluate_loop model_mode metric data_loader) = Training /\
   result (evaluate_loop model_mode metric data_loader) <> None) /\
  (all_batches_run data_loader = false ->
   mode_after (evaluate_loop model_mode metric data_loader) = model_mode /\
   result (evaluate_loop model_mode metric data_loader) = None).
Proof.
  revert metric. induction data_loader as [| b rest IH]; intro metric; simpl.
  - split; [intros _; split; [reflexivity | discriminate] | discriminate].
  - destruct (call_model b) as [out |]; simpl.
    + apply IH.
    + split; [discriminate | auto].
Qed.

(** C7, as the code has it.  [evaluate] does not restore the mode it
    found.  When it returns, the model is in training mode, whatever its
    mode was before the call; when an error is raised during the
    iteration, the model stays in inference mode. *)
Theorem evaluate_mode_after (model_mode : mode) (metric : Metric)
    (data_loader : list Batch) :
  (all_batches_run data_loader = true ->
   mode_after (evaluate model_mode metric data_loader) = Training /\
   result (evaluate model_mode metric data_loader) <> None) /\
  (all_batches_run data_loader = false ->
   mode_after (evaluate model_mode metric data_loader) = Inference /\
   result (evaluate model_mode metric data_loader) = None).
Proof. unfold evaluate. apply evaluate_loop_mode. Qed.

(* ----------------------------------------------------------------- *)
(** *** What [evaluate] returns *)

Definition first_logits (out : model_output Logits) : Logits :=
  match out with
  | Plain l => l
  | Tupled l _ => l
  end.

(** The metric after one more batch on which the model call returns. *)
Definition update_with (metric : Metric) (batch : Batch) : Metric :=
  match call_model batch with
  | Some out =>
      metric_update metric (metric_compute (first_logits out) batch)
  | None => metric
  end.

Lemma evaluate_loop_run model_mode data_loader :
  forall metric,
    all_batches_run data_loader = true ->
    evaluate_loop model_mode metric data_loader
    = {| mode_after := Training;
         metric_after := fold_left update_with data_loader metric;
         result := Some (metric_accumulate
                           (fold_left update_with data_loader metric)) |}.
Proof.
  induction data_loader as [| b rest IH]; intros metric H; simpl in *.
  - reflexivity.
  - unfold update_with at 2 4.
    destruct (call_model b) as [out |]; [| discriminate].
    rewrite IH by exact H. now destruct out.
Qed.

(** X16. When no batch raises, [evaluate] returns what the metric
    accumulates after one reset and one update per batch, in loader
    order; what the metric held before the call enters through [reset]
    only. *)
Theorem evaluate_result (model_mode : mode) (metric : Metric)
    (data_loader : list Batch) :
  all_batches_run data_loader = true ->
  result (evaluate model_mode metric data_loader)
  = Some (metric_accumulate
            (fold_left update_with data_loader (metric_reset metric))) /\
  (forall metric',
      metric_reset metric' = metric_reset metric ->
      evaluate model_mode metric' data_loader
      = evaluate model_mode metric data_loader).
Proof.
  intro H. unfold evaluate. split.
  - now rewrite evaluate_loop_run.
  - intros metric' E. now rewrite E.
Qed.

(** X17. [evaluate] stops at the first batch on which the model raises:
    the metric holds the updates of the batches before it, no result is
    returned, and the batches behind it play no part. *)
Theorem evaluate_stops_at_first_error (model_mode : mode) (metric : Metric)
    (before : list Batch) (bad : Batch) (behind : list Batch) :
  all_batches_run before = true ->
  call_model bad = None ->
  evaluate model_mode metric (before ++ bad :: behind)
  = {| mode_after := Inference;
       metric_after := fold_left update_with before (metric_reset metric);
       result := None |}.
Proof.
  intros H B. unfold evaluate.
  generalize (metric_reset metric) as m.
  induction before as [| b rest IH]; intro m; simpl in *.
  - now rewrite B.
  - unfold update_with at 2.
    destruct (call_model b) as [out |]; [| discriminate].
    rewrite IH by exact H. now destruct out.
Qed.

End Evaluate.

(** A metric that counts the batches on which the model output is [true].
    The model raises on the batch [0]. *)
Definition demo_call (b : nat) : option (model_output bool) :=
  match b with
  | 0 => None
  | S _ => Some (Plain (Nat.even b))
  end.

Definition demo_evaluate (model_mode : mode) (data_loader : list nat)
  : outcome nat nat :=
  evaluate demo_call (fun _ => 0) (fun l _ => l)
           (fun m (c : bool) => if c then S m else m) (fun m => m)
           model_mode 7 data_loader.

Lemma evaluate_mode_after_witness :
  mode_after (demo_evaluate Inference [2; 3; 4]) = Training /\
  result (demo_evaluate Inference [2; 3; 4]) <> None.
Proof.
  apply (evaluate_mode_after demo_call (fun _ => 0) (fun l _ => l)
           (fun m (c : bool) => if c then S m else m) (fun m => m)
           Inference 7 [2; 3; 4]).
  reflexivity.
Defined.

(** C7 as stated fails on both exits: a model in inference mode before a
    call that returns is in training mode afterwards, and a model in
    training mode before a call that raises is left in inference mode. *)
Lemma evaluate_does_not_restore_mode :
  result (demo_evaluate Inference [2; 3; 4]) = Some 2 /\
  mode_after (demo_evaluate Inference [2; 3; 4]) <> Inference /\
  result (demo_evaluate Training [2; 0; 4]) = None /\
  mode_after (demo_evaluate Training [2; 0; 4]) <> Training.
Proof. repeat split; discriminate. Qed.

(** The metric counts the even batches, from 0 after the reset. *)
Lemma evaluate_result_witness :
  result (demo_evaluate Training [2; 3; 4]) = Some 2.
Proof.
  exact (proj1 (evaluate_result demo_call (fun _ => 0) (fun l _ => l)
                  (fun m (c : bool) => if c then S m else m) (fun m => m)
                  Training 7 [2; 3; 4] eq_refl)).
Defined.

(** The model raises on the second of three batches. *)
Lemma evaluate_stops_at_first_error_witness :
  demo_evaluate Training [2; 0; 4]
  = {| mode_after := Inference; metric_after := 1; result := None |}.
Proof.
  exact (evaluate_stops_at_first_error demo_call (fun _ => 0) (fun l _ => l)
           (fun m (c : bool) => if c then S m else m) (fun m => m)
           Training 7 [2] 0 [4] eq_refl eq_refl).
Defined.

End Eval.

(* ================================================================= *)
(** ** [ernie_forward], the forward that replaces [ErnieModel.forward] *)

Module Ernie.

(** A mask tensor of shape [batch, 1, 1, length]. *)
Definition Mask : Type := list (list (list (list Q))).

(** The list objects passed as [attention_mask], by identity.  Location
    [default_mask] is the list [[None, None]] built once, when the
    function is defined, and shared by every call that leaves the
    argument out. *)
Definition Heap : Type := nat -> list (option Mask).

Definition default_mask : nat := 0.

Definition store (heap : Heap) (loc : nat) (v : list (option Mask)) : Heap :=
  fun l => if l =? loc then v else heap l.

Section Forward.

Variables Aux Emb Encoded Pooled : Type.
Variable pad_token_id : Z.

(** [self.embeddings], [self.encoder], [self.pooler]. *)
Variable embeddings : list (list Z) -> Aux -> Emb.
Variable encoder : Emb -> list (option Mask) -> Encoded.
Variable pooler : Encoded -> Pooled.

(** [unsqueeze((input_ids == pad_token_id).astype(wtype) * -1e9,
    axis=[1, 2])] *)
Definition pad_mask (input_ids : list (list Z)) : Mask :=
  map (fun row =>
         [[map (fun id => if (id =? pad_token_id)%Z
                          then (-1000000000)%Q else 0%Q) row]])
      input_ids.

(** Lines 197-211.  [attention_mask] is the location of the list the
    caller passes; [attention_mask[0]] raises on an empty list. *)
Definition ernie_forward (heap : Heap) (input_ids : list (list Z))
    (aux : Aux) (attention_mask : nat)
  : option (Heap * (Encoded * Pooled)) :=
  match heap attention_mask with
  | [] => None
  | first :: rest =>
      let heap :=
        match first with
        | None =>
            (* attention_mask[0] = ... *)
            store heap attention_mask (Some (pad_mask input_ids) :: rest)
        | Some _ => heap
        end in
      let embedding_output := embeddings input_ids aux in
      let encoded_layer := encoder embedding_output (heap attention_mask) in
      let pooled_output := pooler encoded_layer in
      Some (heap, (encoded_layer, pooled_output))
  end.

Lemma store_same heap loc v : store heap loc v loc = v.
Proof. unfold store. now rewrite Nat.eqb_refl. Qed.

Lemma store_other heap loc v l : l <> loc -> store heap loc v l = heap l.
Proof.
  intro H. unfold store. apply Nat.eqb_neq in H. now rewrite H.
Qed.

(** X18. A mask list is filled once.  After a call through a list whose
    first slot was empty, a second call through the same list object (in
    particular through the default argument, twice left out) runs the
    encoder on the padding mask of the first call's input, whatever the
    second input is, and changes no list. *)
Theorem ernie_forward_reuses_mask heap input_ids1 aux1 input_ids2 aux2
    attention_mask rest :
  heap attention_mask = None :: rest ->
  exists heap1 out1,
    ernie_forward heap input_ids1 aux1 attention_mask = Some (heap1, out1) /\
    ernie_forward heap1 input_ids2 aux2 attention_mask
    = Some (heap1,
            (encoder (embeddings input_ids2 aux2)
                     (Some (pad_mask input_ids1) :: rest),
             pooler (encoder (embeddings input_ids2 aux2)
                             (Some (pad_mask input_ids1) :: rest)))).
Proof.
  intro H. unfold ernie_forward at 1. rewrite H.
  do 2 eexists. split; [reflexivity |].
  unfold ernie_forward. now rewrite !store_same.
Qed.

(** X19. A call through a list of its own, with an empty first slot (the
    [[None, None]] that every call of the script passes), runs the
    encoder on the padding mask of its own input, whatever earlier calls
    through other lists have done, and leaves every other list, the
    default one included, as it was. *)
Theorem ernie_forward_fresh_mask heap input_ids1 aux1 input_ids2 aux2
    mask1 mask2 rest heap1 out1 :
  mask1 <> mask2 ->
  heap mask2 = None :: rest ->
  ernie_forward heap input_ids1 aux1 mask1 = Some (heap1, out1) ->
  exists heap2,
    ernie_forward heap1 input_ids2 aux2 mask2
    = Some (heap2,
            (encoder (embeddings input_ids2 aux2)
                     (Some (pad_mask input_ids2) :: rest),
             pooler (encoder (embeddings input_ids2 aux2)
                             (Some (pad_mask input_ids2) :: rest)))) /\
    forall l, l <> mask2 -> heap2 l = heap1 l.
Proof.
  intros Hne H2 H1.
  assert (E : heap1 mask2 = None :: rest).
  { unfold ernie_forward in H1.
    destruct (heap mask1) as [| [m |] r]; [discriminate | |];
      injection H1 as <- _; auto.
    rewrite store_other; auto. }
  unfold ernie_forward. rewrite E. eexists. split.
  - rewrite store_same. reflexivity.
  - intros l Hl. now apply store_other.
Qed.

(** The padding mask has one row per input row, of the input's length,
    and holds -1e9 exactly at the positions of the padding token and 0
    elsewhere. *)
Lemma pad_mask_marks_padding (input_ids : list (list Z)) :
  length (pad_mask input_ids) = length input_ids /\
  forall b row,
    nth_error input_ids b = Some row ->
    exists m,
      nth_error (pad_mask input_ids) b = Some [[m]] /\
      length m = length row /\
      forall t id,
        nth_error row t = Some id ->
        nth_error m t
        = Some (if (id =? pad_token_id)%Z then (-1000000000)%Q else 0%Q).
Proof.
  unfold pad_mask. split; [apply length_map |].
  intros b row H. eexists. split; [| split].
  - rewrite nth_error_map, H. reflexivity.
  - apply length_map.
  - intros t id Ht. now rewrite nth_error_map, Ht.
Qed.

End Forward.

(** An encoder that returns the mask list it is given; every list of
    the heap is [[None, None]] at first. *)
Definition demo_forward (heap : Heap) (input_ids : list (list Z))
    (attention_mask : nat)
  : option (Heap * (list (option Mask) * unit)) :=
  ernie_forward 0%Z (fun X (_ : unit) => X)
                (fun (_ : list (list Z)) m => m) (fun _ => tt)
                heap input_ids tt attention_mask.

Definition demo_heap : Heap := fun _ => [None; None].

(** Two calls that leave [attention_mask] out. *)
Lemma ernie_forward_reuses_mask_witness :
  exists heap1 out1,
    demo_forward demo_heap [[5; 0]%Z] default_mask = Some (heap1, out1) /\
    demo_forward heap1 [[0; 7; 0]%Z] default_mask
    = Some (heap1, ([Some (pad_mask 0%Z [[5; 0]%Z]); None], tt)).
Proof.
  apply (ernie_forward_reuses_mask 0%Z (fun X (_ : unit) => X)
           (fun (_ : list (list Z)) m => m) (fun _ => tt)
           demo_heap [[5; 0]%Z] tt [[0; 7; 0]%Z] tt default_mask
           (rest := [None])).
  reflexivity.
Defined.

(** A call through the default list, then one through a list of its
    own. *)
Lemma ernie_forward_fresh_mask_witness :
  exists heap1 out1,
    demo_forward demo_heap [[5; 0]%Z] default_mask = Some (heap1, out1) /\
    exists heap2,
      demo_forward heap1 [[0; 7; 0]%Z] 1
      = Some (heap2, ([Some (pad_mask 0%Z [[0; 7; 0]%Z]); None], tt)) /\
      forall l, l <> 1 -> heap2 l = heap1 l.
Proof.
  do 2 eexists. split; [reflexivity |].
  eapply (ernie_forward_fresh_mask 0%Z (fun X (_ : unit) => X)
           (fun (_ : list (list Z)) m => m) (fun _ => tt)
           demo_heap [[5; 0]%Z] tt [[0; 7; 0]%Z] tt
           (mask1 := default_mask) (mask2 := 1) (rest := [None])).
  - discriminate.
  - reflexivity.
  - reflexivity.
Defined.

End Ernie.

(* ================================================================= *)
(** ** Python's [a / b] on integers and [math.ceil] *)

Module PyFloat.

Local Open Scope Z_scope.

(** A finite binary64 number, [mantissa * 2 ^ exponent]. *)
Record float : Type := mkFloat { mantissa : Z; exponent : Z }.

(** The fraction [p / q], with [0 <= p] and [0 < q], rounded to the
    nearest integer, a tie to the even one. *)
Definition round_half_even (p q : Z) : Z :=
  let f := p / q in
  match 2 * (p mod q) ?= q with
  | Lt => f
  | Gt => f + 1
  | Eq => if Z.even f then f else f + 1
  end.

(** [a / b] divided by [2 ^ e] is [scaled_num a e / scaled_den b e]. *)
Definition scaled_num (a e : Z) : Z := a * 2 ^ Z.max 0 (- e).
Definition scaled_den (b e : Z) : Z := b * 2 ^ Z.max 0 e.

(** The [e] with [2 ^ e <= a / b < 2 ^ (e + 1)], for positive [a], [b]. *)
Definition binade (a b : Z) : Z :=
  let e := Z.log2 a - Z.log2 b in
  if scaled_num a e <? scaled_den b e then e - 1 else e.

(** [a / b] for two integers: the quotient rounded to the nearest binary64
    number (53 bits, or the multiples of [2 ^ -1074] below [2 ^ -1022]), a
    tie to even.  [None] stands for the ZeroDivisionError of a zero
    divisor and for the OverflowError of a result of [2 ^ 1024] or
    more. *)
Definition true_divide (a b : Z) : option float :=
  if b =? 0 then None else
  if a =? 0 then Some (mkFloat 0 0) else
  let s := Z.max (binade (Z.abs a) (Z.abs b) - 52) (-1074) in
  let m := round_half_even (scaled_num (Z.abs a) s) (scaled_den (Z.abs b) s) in
  if 2 ^ 1024 <=? m * 2 ^ Z.max 0 s then None
  else Some (mkFloat (Z.sgn a * Z.sgn b * m) s).

(** [math.ceil(x)], an integer. *)
Definition ceil (x : float) : Z :=
  if 0 <=? exponent x then mantissa x * 2 ^ exponent x
  else - ((- mantissa x) / 2 ^ (- exponent x)).

Lemma round_half_even_le p q n :
  0 < q -> p <= n * q -> round_half_even p q <= n.
Proof.
  intros Hq Hp. unfold round_half_even.
  pose proof (Z.div_mod p q ltac:(lia)) as DM.
  pose proof (Z.mod_pos_bound p q Hq) as MB.
  destruct (Z.compare_spec (2 * (p mod q)) q) as [E | L | G].
  - destruct (Z.even (p / q)); nia.
  - nia.
  - nia.
Qed.

Lemma round_half_even_gt p q n :
  0 < q -> q < 2 * (p - n * q) -> n < round_half_even p q.
Proof.
  intros Hq Hp. unfold round_half_even.
  pose proof (Z.div_mod p q ltac:(lia)) as DM.
  pose proof (Z.mod_pos_bound p q Hq) as MB.
  destruct (Z.compare_spec (2 * (p mod q)) q) as [E | L | G].
  - destruct (Z.even (p / q)); nia.
  - nia.
  - nia.
Qed.

Lemma binade_small a b :
  0 < a < 2 ^ 53 -> 0 < b < 2 ^ 53 ->
  -53 <= binade a b <= 52 /\
  (0 <= binade a b -> b * 2 ^ binade a b <= a).
Proof.
  intros Ha Hb. unfold binade, scaled_num, scaled_den.
  pose proof (Z.log2_spec a ltac:(lia)) as La.
  pose proof (Z.log2_spec b ltac:(lia)) as Lb.
  pose proof (Z.log2_nonneg a) as Na. pose proof (Z.log2_nonneg b) as Nb.
  assert (Ua : Z.log2 a < 53) by (apply Z.log2_lt_pow2; lia).
  assert (Ub : Z.log2 b < 53) by (apply Z.log2_lt_pow2; lia).
  set (la := Z.log2 a) in *. set (lb := Z.log2 b) in *.
  destruct (Z.ltb_spec (a * 2 ^ Z.max 0 (- (la - lb)))
                       (b * 2 ^ Z.max 0 (la - lb))) as [L | G].
  - split; [lia |]. intro He.
    replace la with (Z.succ lb + (la - lb - 1)) in La at 1 by lia.
    rewrite Z.pow_add_r in La by lia.
    assert (0 < 2 ^ (la - lb - 1)) by (apply Z.pow_pos_nonneg; lia).
    nia.
  - split; [lia |]. intro He.
    rewrite (Z.max_r 0 (la - lb)) in G by lia.
    rewrite (Z.max_l 0 (- (la - lb))) in G by lia.
    rewrite Z.pow_0_r in G. lia.
Qed.

(** Below [2 ^ 53] the rounding does not reach the next integer: the
    ceiling of the rounded quotient is the ceiling of the quotient. *)
Lemma ceil_true_divide_small a b :
  0 < a < 2 ^ 53 -> 0 < b < 2 ^ 53 ->
  exists x, true_divide a b = Some x /\ ceil x = (a + b - 1) / b.
Proof.
  intros Ha Hb.
  destruct (binade_small Ha Hb) as [[E1 E2] E3].
  unfold true_divide.
  destruct (Z.eqb_spec b 0) as [| _]; [lia |].
  destruct (Z.eqb_spec a 0) as [| _]; [lia |].
  rewrite (Z.abs_eq a), (Z.abs_eq b) by lia.
  set (e := binade a b) in *.
  rewrite (Z.max_l (e - 52) (-1074)) by lia.
  unfold scaled_num, scaled_den.
  rewrite (Z.max_r 0 (- (e - 52))) by lia.
  rewrite (Z.max_l 0 (e - 52)) by lia.
  rewrite Z.pow_0_r, !Z.mul_1_r.
  replace (- (e - 52)) with (52 - e) by lia.
  set (T := 2 ^ (52 - e)).
  assert (HT : 0 < T) by (apply Z.pow_pos_nonneg; lia).
  set (k := (a - 1) / b).
  pose proof (Z.div_mod (a - 1) b ltac:(lia)) as DM.
  pose proof (Z.mod_pos_bound (a - 1) b ltac:(lia)) as MB.
  fold k in DM.
  assert (Hk : 0 <= k) by (apply Z.div_pos; lia).
  assert (Hb2 : b < 2 * T).
  { unfold T. destruct (Z.le_gt_cases 0 e) as [P | N].
    - specialize (E3 P).
      assert (X : 2 ^ 53 = 2 ^ e * (2 * 2 ^ (52 - e))).
      { rewrite <- (Z.pow_succ_r 2 (52 - e)) by lia.
        rewrite <- Z.pow_add_r by lia. f_equal. lia. }
      assert (0 < 2 ^ e) by (apply Z.pow_pos_nonneg; lia).
      nia.
    - assert (2 ^ 52 <= 2 ^ (52 - e)) by (apply Z.pow_le_mono_r; lia).
      change (2 ^ 53) with (2 * 2 ^ 52) in Hb. lia. }
  set (m := round_half_even (a * T) b).
  assert (Hup : m <= (k + 1) * T)
    by (apply round_half_even_le; [lia | nia]).
  assert (Hlo : k * T < m)
    by (apply round_half_even_gt; [lia | nia]).
  assert (HTu : T <= 2 ^ 105) by (apply Z.pow_le_mono_r; lia).
  assert (Hm : m < 2 ^ 1024).
  { assert (m <= 2 ^ 53 * 2 ^ 105) by nia.
    assert (2 ^ 53 * 2 ^ 105 < 2 ^ 1024) by (vm_compute; reflexivity).
    lia. }
  replace (Z.sgn a) with 1 by lia. replace (Z.sgn b) with 1 by lia.
  rewrite !Z.mul_1_l. fold m.
  destruct (Z.leb_spec (2 ^ 1024) m) as [| _]; [lia |].
  eexists. split; [reflexivity |].
  replace ((a + b - 1) / b) with (k + 1)
    by (unfold k; replace (a + b - 1) with (a - 1 + 1 * b) by lia;
        rewrite Z.div_add by lia; reflexivity).
  unfold ceil. simpl.
  destruct (Z.leb_spec 0 (e - 52)) as [P | N].
  - assert (HT1 : T = 1)
      by (unfold T; replace (52 - e) with 0 by lia; reflexivity).
    replace (e - 52) with 0 by lia. rewrite Z.pow_0_r. lia.
  - replace (- (e - 52)) with (52 - e) by lia. fold T.
    assert (D : - m = - (k + 1) * T + ((k + 1) * T - m)) by lia.
    rewrite D, Z.div_add_l by lia.
    rewrite (Z.div_small ((k + 1) * T - m) T) by lia. lia.
Qed.

(** Beyond [2 ^ 53] it does: [(2 ^ 53 + 1) / 1] is rounded to [2 ^ 53]. *)
Example ceil_true_divide_large :
  option_map ceil (true_divide (2 ^ 53 + 1) 1) = Some (2 ^ 53).
Proof. vm_compute. reflexivity. Qed.

End PyFloat.

(* ================================================================= *)
(** ** The training loop of [do_train] *)

Module Train.

(** The arguments the loop reads. *)
Record Args : Type := mkArgs {
  max_steps : Z;
  num_train_epochs : Z;
  logging_steps : Z;
  save_steps : Z;
  width_mult_list : list Q
}.

(** What the loop does, in the order it does it. *)
Inductive event : Type :=
| Backward (width_mult : Q)
| OptimizerStep
| SchedulerStep
| ClearGrad
| EvalTeacher (res : Q)
| EvalStudent (width_mult res : Q)
| SaveCheckpoint (res : Q).

(** How the processing of one batch ends. *)
Inductive signal : Type := Continue | Return | Raise.

(** How the loop ends: by the [return] of line 430, by running out of
    epochs (line 431 prints [best_res]), or by an error. *)
Inductive outcome : Type := Returned | Exhausted | Raised.

(** [num_training_steps] and [num_train_epochs] (lines 343-349);
    [len] is [len(train_data_loader)].  With [max_steps > 0] the division
    of line 345 is the division of two integers into a float: it raises
    on an empty loader, and on a quotient too large for a float. *)
Definition training_plan (args : Args) (len : Z) : option (Z * Z) :=
  if (0 <? max_steps args)%Z then
    let num_training_steps := max_steps args in
    (* math.ceil(num_training_steps / len(train_data_loader)) *)
    match PyFloat.true_divide num_training_steps len with
    | None => None
    | Some quotient => Some (num_training_steps, PyFloat.ceil quotient)
    end
  else
    Some ((len * num_train_epochs args)%Z, num_train_epochs args).

Section Loop.

(** The trainable parameters and their accumulated gradients. *)
Variables Params Grad Batch : Type.
Variable gzero : Grad.
Variable gadd : Grad -> Grad -> Grad.

(** The gradient of the loss of one batch at one width
    ([set_net_config], the two forward passes, [loss.backward()]). *)
Variable loss_grad : Params -> Batch -> Q -> Grad.

(** [optimizer.step()] at a position of the learning-rate schedule. *)
Variable optimizer_update : Params -> Grad -> nat -> Params.

(** What [evaluate] returns for the teacher (whose weights never change)
    and for the student with its current parameters at a width. *)
Variable evaluate_teacher : Q.
Variable evaluate_student : Params -> Q -> Q.

Record TrainState : Type := mkState {
  global_step : Z;
  params : Params;
  grad : Grad;
  lr_steps : nat;
  best_res : Q;
  trace : list event
}.

(** [global_step += 1] *)
Definition next_step (st : TrainState) : TrainState :=
  {| global_step := global_step st + 1; params := params st;
     grad := grad st; lr_steps := lr_steps st; best_res := best_res st;
     trace := trace st |}.

(** One round of the width loop: [loss.backward()] adds the gradient of
    this width to what the parameters hold already. *)
Definition backward (batch : Batch) (st : TrainState) (width_mult : Q)
  : TrainState :=
  {| global_step := global_step st; params := params st;
     grad := gadd (grad st) (loss_grad (params st) batch width_mult);
     lr_steps := lr_steps st; best_res := best_res st;
     trace := trace st ++ [Backward width_mult] |}.

(** [optimizer.step()] *)
Definition optimizer_step (st : TrainState) : TrainState :=
  {| global_step := global_step st;
     params := optimizer_update (params st) (grad st) (lr_steps st);
     grad := grad st; lr_steps := lr_steps st; best_res := best_res st;
     trace := trace st ++ [OptimizerStep] |}.

(** [lr_scheduler.step()] *)
Definition scheduler_step (st : TrainState) : TrainState :=
  {| global_step := global_step st; params := params st;
     grad := grad st; lr_steps := S (lr_steps st); best_res := best_res st;
     trace := trace st ++ [SchedulerStep] |}.

(** [optimizer.clear_grad()] *)
Definition clear_grad (st : TrainState) : TrainState :=
  {| global_step := global_step st; params := params st;
     grad := gzero; lr_steps := lr_steps st; best_res := best_res st;
     trace := trace st ++ [ClearGrad] |}.

(** Line 409: the teacher is evaluated, the value is not kept. *)
Definition eval_teacher (st : TrainState) : TrainState :=
  {| global_step := global_step st; params := params st;
     grad := grad st; lr_steps := lr_steps st; best_res := best_res st;
     trace := trace st ++ [EvalTeacher evaluate_teacher] |}.

(** Lines 412-428: the student at one width, and the checkpoint. *)
Definition eval_student (st : TrainState) (width_mult : Q) : TrainState :=
  let res := evaluate_student (params st) width_mult in
  if Argsort.Qltb (best_res st) res then
    {| global_step := global_step st; params := params st;
       grad := grad st; lr_steps := lr_steps st;
       best_res := res;
       trace := trace st ++ [EvalStudent width_mult res;
                             SaveCheckpoint res] |}
  else
    {| global_step := global_step st; params := params st;
       grad := grad st; lr_steps := lr_steps st; best_res := best_res st;
       trace := trace st ++ [EvalStudent width_mult res] |}.

(** The width loop of lines 385-395. *)
Definition backward_widths (args : Args) (batch : Batch) (st : TrainState)
  : TrainState :=
  fold_left (backward batch) (width_mult_list args) st.

(** Lines 396-398. *)
Definition update (st : TrainState) : TrainState :=
  clear_grad (scheduler_step (optimizer_step st)).

(** Lines 408-428. *)
Definition eval_round (args : Args) (st : TrainState) : TrainState :=
  fold_left eval_student (width_mult_list args) (eval_teacher st).

(** The log line of lines 400-405 prints [loss], a name that is bound in
    the width loop only. *)
Definition loss_unbound (args : Args) : bool :=
  match width_mult_list args with
  | [] => true
  | _ :: _ => false
  end.

(** The body of the batch loop, lines 382-430.  The two remainders raise
    on a zero divisor, the log line on an unbound [loss]. *)
Definition train_batch (args : Args) (num_training_steps : Z)
    (st : TrainState) (batch : Batch) : TrainState * signal :=
  let st := next_step st in
  let st := backward_widths args batch st in
  let st := update st in
  if (logging_steps args =? 0)%Z then (st, Raise) else
  if (global_step st mod logging_steps args =? 0)%Z && loss_unbound args
  then (st, Raise) else
  if (save_steps args =? 0)%Z then (st, Raise) else
  let st :=
    if ((global_step st mod save_steps args =? 0)
        || (global_step st =? num_training_steps))%Z
    then eval_round args st else st in
  if (num_training_steps <=? global_step st)%Z
  then (st, Return) else (st, Continue).

Fixpoint run_batches (args : Args) (num_training_steps : Z)
    (batches : list Batch) (st : TrainState) : TrainState * signal :=
  match batches with
  | [] => (st, Continue)
  | batch :: rest =>
      let (st', s) := train_batch args num_training_steps st batch in
      match s with
      | Continue => run_batches args num_training_steps rest st'
      | _ => (st', s)
      end
  end.

(** The training loader: the same number of batches in every epoch, in an
    order that may change with the epoch. *)
Record Loader : Type := mkLoader {
  num_batches : nat;
  batch_at : nat -> nat -> Batch
}.

Definition batches_of (loader : Loader) (epoch : nat) : list Batch :=
  map (batch_at loader epoch) (seq 0 (num_batches loader)).

(** [for epoch in range(num_train_epochs)], from epoch [epoch] on. *)
Fixpoint run_epochs (args : Args) (num_training_steps : Z)
    (loader : Loader) (epochs epoch : nat) (st : TrainState)
  : TrainState * outcome :=
  match epochs with
  | 0 => (st, Exhausted)
  | S k =>
      let (st', s) :=
        run_batches args num_training_steps (batches_of loader epoch) st in
      match s with
      | Continue => run_epochs args num_training_steps loader k (S epoch) st'
      | Return => (st', Returned)
      | Raise => (st', Raised)
      end
  end.

(** Lines 373-375; [grad0] is what the parameters hold as gradient when
    the loop is entered. *)
Definition initial_state (p : Params) (grad0 : Grad) : TrainState :=
  {| global_step := 0; params := p; grad := grad0; lr_steps := 0;
     best_res := 0%Q; trace := [] |}.

(** Lines 343-431. *)
Definition train_loop (args : Args) (loader : Loader) (p : Params)
    (grad0 : Grad) : option (TrainState * outcome) :=
  match training_plan args (Z.of_nat (num_batches loader)) with
  | None => None
  | Some (num_training_steps, epochs) =>
      Some (run_epochs args num_training_steps loader (Z.to_nat epochs) 0
                       (initial_state p grad0))
  end.




(** The results at which a checkpoint has been written. *)
Definition checkpoints (tr : list event) : list Q :=
  flat_map (fun e => match e with SaveCheckpoint r => [r] | _ => [] end) tr.

(** The results of the student evaluations. *)
Definition student_results (tr : list event) : list Q :=
  flat_map (fun e => match e with EvalStudent _ r => [r] | _ => [] end) tr.


(** Running maximum of the student results, and the results that beat
    every earlier one. *)
Definition qmax (best res : Q) : Q :=
  if Argsort.Qltb best res then res else best.

Fixpoint records (best : Q) (results : list Q) : list Q :=
  match results with
  | [] => []
  | r :: rest =>
      if Argsort.Qltb best r then r :: records r rest
      else records best rest
  end.

(* ----------------------------------------------------------------- *)
(** *** The width loop and the update that follows it *)

Lemma backward_widths_spec batch ws :
  forall st,
    let st' := fold_left (backward batch) ws st in
    global_step st' = global_step st /\
    params st' = params st /\
    grad st' = fold_left gadd (map (loss_grad (params st) batch) ws)
                         (grad st) /\
    lr_steps st' = lr_steps st /\
    best_res st' = best_res st /\
    trace st' = trace st ++ map Backward ws.
Proof.
  induction ws as [| w ws IH]; intro st; simpl.
  - now rewrite app_nil_r.
  - destruct (IH (backward batch st w)) as (G & P & D & L & B & Tr).
    simpl in *. rewrite G, P, D, L, B, Tr, <- app_assoc. repeat split.
Qed.

Lemma eval_student_keeps st w :
  global_step (eval_student st w) = global_step st /\
  params (eval_student st w) = params st /\
  grad (eval_student st w) = grad st /\
  lr_steps (eval_student st w) = lr_steps st.
Proof. unfold eval_student. now destruct (Argsort.Qltb _ _). Qed.

Lemma eval_round_keeps args st :
  global_step (eval_round args st) = global_step st /\
  params (eval_round args st) = params st /\
  grad (eval_round args st) = grad st /\
  lr_steps (eval_round args st) = lr_steps st.
Proof.
  unfold eval_round.
  assert (H : forall ws s,
             global_step (fold_left eval_student ws s) = global_step s /\
             params (fold_left eval_student ws s) = params s /\
             grad (fold_left eval_student ws s) = grad s /\
             lr_steps (fold_left eval_student ws s) = lr_steps s).
  { induction ws as [| w ws IH]; intro s; simpl; auto.
    destruct (IH (eval_student s w)) as (G & P & D & L).
    destruct (eval_student_keeps s w) as (G' & P' & D' & L').
    repeat split; congruence. }
  apply (H (width_mult_list args) (eval_teacher st)).
Qed.

(** Evaluation events only. *)
Definition is_eval (e : event) : Prop :=
  match e with
  | EvalTeacher _ | EvalStudent _ _ | SaveCheckpoint _ => True
  | _ => False
  end.

Lemma eval_round_trace args st :
  exists evs, trace (eval_round args st) = trace st ++ evs /\
              Forall is_eval evs.
Proof.
  unfold eval_round.
  assert (H : exists evs, trace (eval_teacher st) = trace st ++ evs /\
                          Forall is_eval evs).
  { eexists. split; [reflexivity |]. repeat constructor. }
  revert H. generalize (eval_teacher st) as s.
  induction (width_mult_list args) as [| w ws IH]; intros s H; simpl; auto.
  apply IH. destruct H as (evs & E & F).
  unfold eval_student. destruct (Argsort.Qltb _ _); simpl; rewrite E;
    eexists; (split; [rewrite <- app_assoc; reflexivity |]);
    apply Forall_app; split; auto; repeat constructor.
Qed.

(** One batch: the state after the update, then evaluation events only. *)
Lemma train_batch_spec args total st batch :
  let st1 := update (backward_widths args batch (next_step st)) in
  let st2 := fst (train_batch args total st batch) in
  global_step st2 = global_step st1 /\
  params st2 = params st1 /\
  grad st2 = grad st1 /\
  lr_steps st2 = lr_steps st1 /\
  exists evs, trace st2 = trace st1 ++ evs /\ Forall is_eval evs.
Proof.
  intros st1 st2. unfold st2, train_batch. fold st1.
  assert (K : global_step st1 = global_step st1 /\
              params st1 = params st1 /\ grad st1 = grad st1 /\
              lr_steps st1 = lr_steps st1 /\
              exists evs, trace st1 = trace st1 ++ evs /\ Forall is_eval evs).
  { repeat split. exists []. now rewrite app_nil_r. }
  destruct (logging_steps args =? 0)%Z; [exact K |].
  destruct ((global_step st1 mod logging_steps args =? 0)%Z
            && loss_unbound args); [exact K |].
  destruct (save_steps args =? 0)%Z; [exact K |].
  destruct ((global_step st1 mod save_steps args =? 0)
            || (global_step st1 =? total))%Z.
  - destruct (eval_round_keeps args st1) as (G & P & D & L).
    destruct (total <=? global_step (eval_round args st1))%Z; simpl;
      repeat split; auto; apply eval_round_trace.
  - destruct (total <=? global_step st1)%Z; exact K.
Qed.











(* ----------------------------------------------------------------- *)
(** *** How many batches the loop processes *)

Section Steps.

Variable args : Args.
Variable total : Z.
Hypothesis logging_nonzero : logging_steps args <> 0%Z.
Hypothesis save_nonzero : save_steps args <> 0%Z.
Hypothesis some_width : width_mult_list args <> [].

Local Open Scope Z_scope.

Lemma train_batch_signal st batch :
  global_step (fst (train_batch args total st batch)) = global_step st + 1 /\
  snd (train_batch args total st batch)
  = if total <=? global_step st + 1 then Return else Continue.
Proof.
  destruct (train_batch_spec args total st batch) as (G & _).
  destruct (backward_widths_spec batch (width_mult_list args) (next_step st))
    as (G1 & _).
  simpl in G, G1. unfold backward_widths in G. rewrite G1 in G.
  split; [exact G |].
  unfold train_batch.
  apply Z.eqb_neq in logging_nonzero, save_nonzero.
  assert (U : loss_unbound args = false)
    by (unfold loss_unbound; now destruct (width_mult_list args)).
  rewrite logging_nonzero, save_nonzero, U, andb_false_r.
  set (st1 := update (backward_widths args batch (next_step st))).
  assert (E1 : global_step st1 = global_step st + 1).
  { unfold st1, backward_widths. simpl. exact G1. }
  destruct ((global_step st1 mod save_steps args =? 0)
            || (global_step st1 =? total)).
  - destruct (eval_round_keeps args st1) as (E2 & _).
    rewrite E2, E1. now destruct (total <=? global_step st + 1).
  - rewrite E1. now destruct (total <=? global_step st + 1).
Qed.

Lemma run_batches_steps batches :
  forall st,
    let r := run_batches args total batches st in
    let g := global_step st in
    let n := Z.of_nat (length batches) in
    (n = 0 \/ g + n < total ->
     snd r = Continue /\ global_step (fst r) = g + n) /\
    (0 < n -> total <= g + n ->
     snd r = Return /\ global_step (fst r) = Z.max (g + 1) total).
Proof.
  induction batches as [| b rest IH]; intro st; simpl.
  - split; [intros _; split; [reflexivity | lia] | lia].
  - destruct (train_batch_signal st b) as [G S].
    destruct (train_batch args total st b) as [st' s]. simpl in G, S.
    specialize (IH st'). simpl in IH. rewrite G in IH.
    destruct IH as [IH1 IH2].
    destruct (Z.leb_spec total (global_step st + 1)); subst s.
    + split; [lia |]. intros _ _. simpl. split; [reflexivity | lia].
    + split.
      * intros [H0 | Hlt]; [lia |].
        destruct IH1 as [-> ->]; [lia |]. split; [reflexivity | lia].
      * intros _ Hle.
        destruct IH2 as [-> ->]; [lia | lia |]. split; [reflexivity | lia].
Qed.

Lemma length_batches_of (loader : Loader) epoch :
  length (batches_of loader epoch) = num_batches loader.
Proof. unfold batches_of. now rewrite length_map, length_seq. Qed.

Lemma run_epochs_steps (loader : Loader) epochs :
  forall epoch st,
    let r := run_epochs args total loader epochs epoch st in
    let g := global_step st in
    let n := Z.of_nat (num_batches loader) in
    let E := Z.of_nat epochs in
    (n = 0 \/ E = 0 \/ g + E * n < total ->
     snd r = Exhausted /\ global_step (fst r) = g + E * n) /\
    (0 < n -> 0 < E -> total <= g + E * n ->
     snd r = Returned /\ global_step (fst r) = Z.max (g + 1) total).
Proof.
  induction epochs as [| k IH]; intros epoch st.
  - simpl. split; [intros _; split; [reflexivity | lia] | lia].
  - cbn [run_epochs].
    pose proof (run_batches_steps (batches_of loader epoch) st) as [B1 B2].
    rewrite length_batches_of in B1, B2.
    destruct (run_batches args total (batches_of loader epoch) st)
      as [st' s]. simpl in B1, B2.
    specialize (IH (S epoch) st'). cbv zeta in IH. destruct IH as [IH1 IH2].
    cbv zeta. rewrite Nat2Z.inj_succ.
    set (n := Z.of_nat (num_batches loader)) in *.
    set (E := Z.of_nat k) in *. set (g := global_step st) in *.
    assert (0 <= n) by (unfold n; lia). assert (0 <= E) by (unfold E; lia).
    split.
    + intro Hc.
      assert (Hb : n = 0 \/ g + n < total) by nia.
      destruct (B1 Hb) as [-> G'].
      rewrite G' in IH1. destruct IH1 as [-> ->]; [nia |].
      split; [reflexivity | nia].
    + intros Hn _ Hle.
      destruct (Z.lt_ge_cases (g + n) total) as [Hlt | Hge].
      * destruct (B1 (or_intror Hlt)) as [-> G'].
        rewrite G' in IH2.
        destruct IH2 as [-> ->]; [lia | nia | nia |].
        split; [reflexivity | lia].
      * destruct (B2 Hn Hge) as [-> G']. simpl. split; [reflexivity | lia].
Qed.

End Steps.

(** The plan fails only with [max_steps > 0], and then by the division:
    on an empty loader, or on a quotient beyond the floats. *)
Lemma training_plan_raises args len :
  training_plan args len = None <->
  (0 < max_steps args)%Z /\
  PyFloat.true_divide (max_steps args) len = None.
Proof.
  unfold training_plan.
  destruct (Z.ltb_spec 0 (max_steps args)) as [Hm | Hm].
  - destruct (PyFloat.true_divide (max_steps args) len); split;
      try discriminate; auto; intros [_ H]; discriminate.
  - split; [discriminate | lia].
Qed.

Lemma training_plan_empty_loader args :
  (0 < max_steps args)%Z -> training_plan args 0 = None.
Proof. intro H. apply training_plan_raises. split; [exact H | reflexivity]. Qed.


(* ----------------------------------------------------------------- *)
(** *** The loop as a sequence of elementary steps *)

Inductive prim_step : TrainState -> TrainState -> Prop :=
| step_next st : prim_step st (next_step st)
| step_backward st batch w : prim_step st (backward batch st w)
| step_optimizer st : prim_step st (optimizer_step st)
| step_scheduler st : prim_step st (scheduler_step st)
| step_clear st : prim_step st (clear_grad st)
| step_teacher st : prim_step st (eval_teacher st)
| step_student st w : prim_step st (eval_student st w).

Inductive reaches : TrainState -> TrainState -> Prop :=
| reaches_refl st : reaches st st
| reaches_step st st' st'' :
    reaches st st' -> prim_step st' st'' -> reaches st st''.

Create HintDb train.
#[local] Hint Constructors prim_step reaches : train.

Lemma reaches_trans st st' st'' :
  reaches st st' -> reaches st' st'' -> reaches st st''.
Proof. induction 2; eauto with train. Qed.

Lemma reaches_fold (A : Type) (f : TrainState -> A -> TrainState) l :
  (forall st a, prim_step st (f st a)) ->
  forall st, reaches st (fold_left f l st).
Proof.
  intro H. induction l as [| a l IH]; intro st; simpl.
  - constructor.
  - eapply reaches_trans; [| apply IH]. eauto with train.
Qed.

Lemma reaches_train_batch args total st batch :
  reaches st (fst (train_batch args total st batch)).
Proof.
  assert (R1 : reaches st
                 (update (backward_widths args batch (next_step st)))).
  { unfold update, backward_widths.
    do 3 (eapply reaches_step; [| constructor]).
    eapply reaches_trans; [| apply reaches_fold; constructor].
    eauto with train. }
  assert (R2 : forall s, reaches s (eval_round args s)).
  { intro s. unfold eval_round.
    eapply reaches_trans; [| apply reaches_fold; constructor].
    eauto with train. }
  unfold train_batch.
  destruct (logging_steps args =? 0)%Z; [exact R1 |].
  match goal with
  | |- context [if ?c && loss_unbound args then _ else _] =>
      destruct (c && loss_unbound args); [exact R1 |]
  end.
  destruct (save_steps args =? 0)%Z; [exact R1 |].
  match goal with
  | |- context [if ?c then eval_round _ _ else _] => destruct c
  end;
  match goal with
  | |- context [if ?c then (_, Return) else _] => destruct c
  end; simpl; auto; eapply reaches_trans; eauto.
Qed.

Lemma reaches_run_batches args total batches :
  forall st, reaches st (fst (run_batches args total batches st)).
Proof.
  induction batches as [| b rest IH]; intro st; simpl; [constructor |].
  pose proof (reaches_train_batch args total st b) as R.
  destruct (train_batch args total st b) as [st' s]. simpl in R.
  destruct s; simpl; auto.
  eapply reaches_trans; [exact R | apply IH].
Qed.

Lemma reaches_run_epochs args total loader epochs :
  forall epoch st,
    reaches st (fst (run_epochs args total loader epochs epoch st)).
Proof.
  induction epochs as [| k IH]; intros epoch st; simpl; [constructor |].
  pose proof (reaches_run_batches args total (batches_of loader epoch) st)
    as R.
  destruct (run_batches args total (batches_of loader epoch) st)
    as [st' s]. simpl in R.
  destruct s; simpl; auto.
  eapply reaches_trans; [exact R | apply IH].
Qed.

(* ----------------------------------------------------------------- *)
(** *** Checkpoint selection *)

Lemma records_app best l l' :
  records best (l ++ l')
  = records best l ++ records (fold_left qmax l best) l'.
Proof.
  revert best. induction l as [| r t IH]; intro best; simpl; [reflexivity |].
  unfold qmax at 2. destruct (Argsort.Qltb best r); simpl; now rewrite IH.
Qed.

(** [best_res] is the running maximum of [0.0] and the student results,
    and the checkpoints are the student results that beat it. *)
Definition selects_records (st : TrainState) : Prop :=
  best_res st = fold_left qmax (student_results (trace st)) 0%Q /\
  checkpoints (trace st) = records 0%Q (student_results (trace st)).

Lemma selects_records_step st st' :
  prim_step st st' -> selects_records st -> selects_records st'.
Proof.
  unfold selects_records, student_results, checkpoints.
  intros H [B C]. destruct H; simpl;
    rewrite ?flat_map_app; simpl; rewrite ?app_nil_r; auto.
  unfold eval_student.
  fold (student_results (trace st)) in *. fold (checkpoints (trace st)) in *.
  destruct (Argsort.Qltb (best_res st) _) eqn:E; simpl;
    rewrite !flat_map_app; simpl;
    fold (student_results (trace st)); fold (checkpoints (trace st));
    rewrite fold_left_app, records_app, <- B, <- C; simpl;
    unfold qmax; rewrite E; rewrite ?app_nil_r; auto.
Qed.

Lemma selects_records_reaches st st' :
  reaches st st' -> selects_records st -> selects_records st'.
Proof.
  induction 1; auto. intro I. eapply selects_records_step; eauto.
Qed.

Lemma train_loop_selects_records args loader p grad0 st out :
  train_loop args loader p grad0 = Some (st, out) ->
  selects_records st.
Proof.
  unfold train_loop.
  destruct (training_plan _ _) as [[total epochs] |]; [| discriminate].
  intro E. injection E as E.
  pose proof (reaches_run_epochs args total loader (Z.to_nat epochs) 0
                (initial_state p grad0)) as R.
  rewrite E in R. simpl in R.
  apply (selects_records_reaches R). split; reflexivity.
Qed.



(* ----------------------------------------------------------------- *)
(** *** One update per batch *)

Definition is_backward (e : event) : bool :=
  match e with Backward _ => true | _ => false end.
Definition is_optimizer_step (e : event) : bool :=
  match e with OptimizerStep => true | _ => false end.
Definition is_scheduler_step (e : event) : bool :=
  match e with SchedulerStep => true | _ => false end.
Definition is_clear_grad (e : event) : bool :=
  match e with ClearGrad => true | _ => false end.

Definition count (p : event -> bool) (tr : list event) : nat :=
  length (filter p tr).

(** The counters and the trace agree on the number of batches processed. *)
Definition in_step (args : Args) (st : TrainState) : Prop :=
  Z.of_nat (lr_steps st) = global_step st /\
  count is_optimizer_step (trace st) = lr_steps st /\
  count is_scheduler_step (trace st) = lr_steps st /\
  count is_clear_grad (trace st) = lr_steps st /\
  count is_backward (trace st)
  = lr_steps st * length (width_mult_list args).

Lemma count_app p tr tr' : count p (tr ++ tr') = count p tr + count p tr'.
Proof. unfold count. now rewrite filter_app, length_app. Qed.

Lemma count_eval_zero p evs :
  (forall e, is_eval e -> p e = false) ->
  Forall is_eval evs -> count p evs = 0.
Proof.
  intros H F. unfold count. induction F as [| e evs He _ IH]; simpl; auto.
  now rewrite (H e He).
Qed.

Lemma count_backwards ws :
  count is_backward (map Backward ws) = length ws /\
  count is_optimizer_step (map Backward ws) = 0 /\
  count is_scheduler_step (map Backward ws) = 0 /\
  count is_clear_grad (map Backward ws) = 0.
Proof.
  unfold count. induction ws as [| w ws (B & O & S & C)]; simpl; auto.
Qed.

Lemma in_step_train_batch args total st batch :
  in_step args st -> in_step args (fst (train_batch args total st batch)).
Proof.
  intros (G & O & S & C & B).
  destruct (train_batch_spec args total st batch)
    as (G2 & _ & _ & L2 & evs & Tr2 & F).
  destruct (backward_widths_spec batch (width_mult_list args) (next_step st))
    as (G1 & _ & _ & L1 & _ & Tr1).
  unfold backward_widths in G2, L2, Tr2. simpl in G1, L1, Tr1, G2, L2, Tr2.
  rewrite G1 in G2. rewrite L1 in L2. rewrite Tr1 in Tr2.
  destruct (count_backwards (width_mult_list args)) as (B' & O' & S' & C').
  unfold in_step. rewrite G2, L2, Tr2, !count_app.
  rewrite O, S, C, B, B', O', S', C'.
  rewrite !count_eval_zero with (evs := evs) by (auto; now intros []).
  unfold count. simpl. repeat split; lia.
Qed.

Lemma in_step_run_batches args total batches :
  forall st, in_step args st ->
             in_step args (fst (run_batches args total batches st)).
Proof.
  induction batches as [| b rest IH]; intros st I; simpl; auto.
  pose proof (@in_step_train_batch args total st b I) as I'.
  destruct (train_batch args total st b) as [st' s]. simpl in I'.
  destruct s; simpl; auto.
Qed.

Lemma in_step_run_epochs args total loader epochs :
  forall epoch st,
    in_step args st ->
    in_step args (fst (run_epochs args total loader epochs epoch st)).
Proof.
  induction epochs as [| k IH]; intros epoch st I; simpl; auto.
  pose proof (@in_step_run_batches args total (batches_of loader epoch) st I)
    as I'.
  destruct (run_batches args total (batches_of loader epoch) st)
    as [st' s]. simpl in I'.
  destruct s; simpl; auto.
Qed.

(** X1. However the loop ends (by its [return], by running out of epochs
    or by an error), it has taken one optimizer step, one step of the
    learning-rate schedule and one clearing of the gradients for every
    batch counted in [global_step], and one backward pass for every such
    batch and every width. *)
Theorem one_update_per_batch args loader p grad0 st out :
  train_loop args loader p grad0 = Some (st, out) ->
  Z.of_nat (lr_steps st) = global_step st /\
  count is_optimizer_step (trace st) = lr_steps st /\
  count is_scheduler_step (trace st) = lr_steps st /\
  count is_clear_grad (trace st) = lr_steps st /\
  count is_backward (trace st)
  = lr_steps st * length (width_mult_list args).
Proof.
  unfold train_loop.
  destruct (training_plan _ _) as [[total epochs] |]; [| discriminate].
  intro E. injection E as E.
  pose proof (@in_step_run_epochs args total loader (Z.to_nat epochs) 0
                (initial_state p grad0)) as I.
  rewrite E in I. apply I. unfold in_step, count. simpl. auto.
Qed.

(* ----------------------------------------------------------------- *)
(** *** The best result and the checkpoint on disk *)

Lemma qmax_ge_l best r : (best <= qmax best r)%Q.
Proof.
  unfold qmax, Argsort.Qltb.
  destruct (Qle_bool r best) eqn:E; simpl; [apply Qle_refl |].
  destruct (Qlt_le_dec best r) as [L | L]; [now apply Qlt_le_weak |].
  apply Qle_bool_iff in L. congruence.
Qed.

Lemma qmax_ge_r best r : (r <= qmax best r)%Q.
Proof.
  unfold qmax, Argsort.Qltb.
  destruct (Qle_bool r best) eqn:E; simpl; [| apply Qle_refl].
  now apply Qle_bool_iff.
Qed.

Lemma qmax_cases best r : qmax best r = best \/ qmax best r = r.
Proof. unfold qmax. destruct (Argsort.Qltb best r); auto. Qed.

Lemma fold_qmax_ge_init results :
  forall best, (best <= fold_left qmax results best)%Q.
Proof.
  induction results as [| r t IH]; intro best; simpl; [apply Qle_refl |].
  eapply Qle_trans; [apply (qmax_ge_l best r) | apply IH].
Qed.

Lemma fold_qmax_ge_all results :
  forall best r, In r results -> (r <= fold_left qmax results best)%Q.
Proof.
  induction results as [| x t IH]; intros best r H; simpl; [contradiction |].
  destruct H as [-> | H]; [| now apply IH].
  eapply Qle_trans; [apply (qmax_ge_r best r) | apply fold_qmax_ge_init].
Qed.

Lemma fold_qmax_attained results :
  forall best,
    fold_left qmax results best = best \/
    In (fold_left qmax results best) results.
Proof.
  induction results as [| x t IH]; intro best; simpl; [now left |].
  destruct (IH (qmax best x)) as [E | H]; [| now right; right].
  rewrite E. destruct (qmax_cases best x) as [-> | ->]; auto.
Qed.

(** X2. After a run, [best_res] is at least 0.0 and at least every result
    a student evaluation has returned, at whatever width and in whatever
    round, and it is 0.0 or one of those results. *)
Theorem best_res_is_global_maximum args loader p grad0 st out :
  train_loop args loader p grad0 = Some (st, out) ->
  (0 <= best_res st)%Q /\
  (forall r, In r (student_results (trace st)) -> (r <= best_res st)%Q) /\
  (best_res st = 0%Q \/ In (best_res st) (student_results (trace st))).
Proof.
  intro R. destruct (train_loop_selects_records _ _ _ _ R) as [B _].
  rewrite B. split; [apply fold_qmax_ge_init |].
  split; [intros r H; now apply fold_qmax_ge_all |].
  apply fold_qmax_attained.
Qed.

Lemma records_increasing results :
  forall best,
    StronglySorted Qlt (records best results) /\
    Forall (Qlt best) (records best results).
Proof.
  induction results as [| r t IH]; intro best; simpl.
  - split; constructor.
  - destruct (Argsort.Qltb best r) eqn:E; [| apply IH].
    destruct (IH r) as [S F].
    assert (L : (best < r)%Q).
    { unfold Argsort.Qltb in E. apply negb_true_iff in E.
      destruct (Qlt_le_dec best r) as [L | L]; [exact L |].
      apply Qle_bool_iff in L. congruence. }
    split; constructor; auto.
    eapply Forall_impl; [| exact F].
    intros x Hx. eapply Qlt_trans; eassumption.
Qed.

Lemma last_checkpoint_step st st' :
  prim_step st st' ->
  last (checkpoints (trace st)) 0%Q = best_res st ->
  last (checkpoints (trace st')) 0%Q = best_res st'.
Proof.
  unfold checkpoints. intros H L.
  destruct H; simpl; rewrite ?flat_map_app; simpl; rewrite ?app_nil_r; auto.
  unfold eval_student.
  destruct (Argsort.Qltb (best_res st) _); simpl;
    rewrite flat_map_app; simpl; rewrite ?app_nil_r; auto.
  apply last_last.
Qed.

Lemma last_checkpoint_reaches st st' :
  reaches st st' ->
  last (checkpoints (trace st)) 0%Q = best_res st ->
  last (checkpoints (trace st')) 0%Q = best_res st'.
Proof.
  induction 1; auto. intro I. eapply last_checkpoint_step; eauto.
Qed.

(** X3. The checkpoints of a run are written for strictly increasing
    results, all above 0.0, and [best_res] is the result of the last one
    (0.0 when none has been written): the checkpoint left in the output
    directory, which every save overwrites, is the one of [best_res]. *)
Theorem last_checkpoint_is_best args loader p grad0 st out :
  train_loop args loader p grad0 = Some (st, out) ->
  StronglySorted Qlt (checkpoints (trace st)) /\
  Forall (Qlt 0) (checkpoints (trace st)) /\
  last (checkpoints (trace st)) 0%Q = best_res st.
Proof.
  intro R. destruct (train_loop_selects_records _ _ _ _ R) as [_ C].
  rewrite C at 1 2.
  destruct (records_increasing (student_results (trace st)) 0%Q) as [S F].
  split; [exact S |]. split; [exact F |].
  revert R. unfold train_loop.
  destruct (training_plan _ _) as [[total epochs] |]; [| discriminate].
  intro E. injection E as E.
  pose proof (reaches_run_epochs args total loader (Z.to_nat epochs) 0
                (initial_state p grad0)) as Re.
  rewrite E in Re. simpl in Re.
  apply (last_checkpoint_reaches Re). reflexivity.
Qed.

Lemma best_res_monotone st st' :
  reaches st st' -> (best_res st <= best_res st')%Q.
Proof.
  induction 1 as [| st st' st'' _ IH H]; [apply Qle_refl |].
  eapply Qle_trans; [exact IH |].
  destruct H; simpl; try apply Qle_refl.
  unfold eval_student.
  match goal with
  | |- context [Argsort.Qltb ?a ?b] => destruct (Argsort.Qltb a b) eqn:E
  end; simpl; [| apply Qle_refl].
  unfold Argsort.Qltb in E. apply negb_true_iff in E.
  match goal with
  | |- (?a <= ?b)%Q => destruct (Qlt_le_dec a b) as [L | L];
                       [now apply Qlt_le_weak |]
  end.
  apply Qle_bool_iff in L. congruence.
Qed.

(** X4. [best_res] never decreases: not over a batch, with or without
    its evaluation round, and not over the rest of the run. *)
Theorem best_res_never_decreases args total loader st batch epochs epoch :
  (best_res st <= best_res (fst (train_batch args total st batch)))%Q /\
  (best_res st
   <= best_res (fst (run_epochs args total loader epochs epoch st)))%Q.
Proof.
  split; apply best_res_monotone.
  - apply reaches_train_batch.
  - apply reaches_run_epochs.
Qed.

(* ----------------------------------------------------------------- *)
(** *** When the loop evaluates, and how it ends *)

(** The events of the student evaluations of one round: for every width,
    in list order, the evaluation and, right behind it, the checkpoint
    when one is written. *)
Inductive student_events : list Q -> list event -> Prop :=
| students_done : student_events [] []
| student_kept w res ws evs :
    student_events ws evs ->
    student_events (w :: ws) (EvalStudent w res :: evs)
| student_saved w res ws evs :
    student_events ws evs ->
    student_events (w :: ws)
                   (EvalStudent w res :: SaveCheckpoint res :: evs).

Lemma eval_students_events ws :
  forall st,
    exists evs,
      student_events ws evs /\
      trace (fold_left eval_student ws st) = trace st ++ evs.
Proof.
  induction ws as [| w ws IH]; intro st; simpl.
  - exists []. split; [constructor | now rewrite app_nil_r].
  - destruct (IH (eval_student st w)) as (evs & S & Tr). rewrite Tr.
    unfold eval_student. destruct (Argsort.Qltb _ _); simpl;
      rewrite <- app_assoc; simpl; eexists;
      (split; [| reflexivity]); constructor; exact S.
Qed.

Lemma flat_map_backward (A : Type) (f : event -> list A) ws :
  (forall w, f (Backward w) = []) -> flat_map f (map Backward ws) = [].
Proof.
  intro Hf. induction ws as [| w ws IH]; simpl; auto. now rewrite Hf.
Qed.

Section Schedule.

Variable args : Args.
Variable total : Z.
Hypothesis logging_nonzero : logging_steps args <> 0%Z.
Hypothesis save_nonzero : save_steps args <> 0%Z.
Hypothesis some_width : width_mult_list args <> [].

Local Open Scope Z_scope.

(** X5. A batch is followed by an evaluation round exactly when the new
    [global_step] is a multiple of [save_steps] or equals the number of
    training steps.  The round comes behind the update of the batch; it
    evaluates the teacher once, first, and then the student at every
    width of [width_mult_list], in list order, each evaluation followed
    at once by its checkpoint if one is written. *)
Theorem evaluation_schedule st batch :
  let g := global_step st + 1 in
  let due := (g mod save_steps args =? 0) || (g =? total) in
  let st' := fst (train_batch args total st batch) in
  let trained :=
    trace st ++ map Backward (width_mult_list args)
    ++ [OptimizerStep; SchedulerStep; ClearGrad] in
  if due then
    exists evs,
      student_events (width_mult_list args) evs /\
      trace st' = trained ++ EvalTeacher evaluate_teacher :: evs
  else trace st' = trained.
Proof.
  intros g due st' trained.
  destruct (backward_widths_spec batch (width_mult_list args) (next_step st))
    as (G1 & _ & _ & _ & _ & Tr1).
  simpl in G1, Tr1.
  set (st1 := update (backward_widths args batch (next_step st))).
  assert (E1 : global_step st1 = g).
  { unfold st1, backward_widths. simpl. exact G1. }
  assert (T1 : trace st1 = trained).
  { unfold st1, backward_widths, trained. simpl. rewrite Tr1.
    now rewrite <- !app_assoc. }
  unfold st', train_batch. fold st1.
  apply Z.eqb_neq in logging_nonzero, save_nonzero.
  assert (U : loss_unbound args = false)
    by (unfold loss_unbound; now destruct (width_mult_list args)).
  rewrite logging_nonzero, save_nonzero, U, andb_false_r, E1.
  fold due. destruct due.
  - destruct (eval_students_events (width_mult_list args) (eval_teacher st1))
      as (evs & S & Tr).
    exists evs. split; [exact S |].
    fold (eval_round args st1) in Tr.
    destruct (total <=? global_step (eval_round args st1)); cbn [fst];
      rewrite Tr; unfold eval_teacher; cbn [trace];
      rewrite T1, <- app_assoc; reflexivity.
  - destruct (total <=? global_step st1); cbn [fst]; exact T1.
Qed.

Lemma run_epochs_no_batches (loader : Loader) epochs :
  num_batches loader = 0%nat ->
  forall epoch st,
    run_epochs args total loader epochs epoch st = (st, Exhausted).
Proof.
  intro N. induction epochs as [| k IH]; intros epoch st; simpl; auto.
  unfold batches_of. rewrite N. simpl. apply IH.
Qed.

End Schedule.

(** X6. The loop falls through to the line that prints [best_res] only
    when it has not trained on a single batch: the state is then the
    initial one, with [global_step = 0], nothing evaluated and
    [best_res = 0.0].  (With non-zero logging and saving intervals, at
    least one width, and [max_steps] and the number of batches below
    [2 ^ 53], where the float division of line 345 loses nothing.) *)
Theorem falls_through_only_untrained args loader p grad0 st :
  logging_steps args <> 0%Z -> save_steps args <> 0%Z ->
  width_mult_list args <> [] ->
  (max_steps args < 2 ^ 53)%Z ->
  (Z.of_nat (num_batches loader) < 2 ^ 53)%Z ->
  train_loop args loader p grad0 = Some (st, Exhausted) ->
  st = initial_state p grad0.
Proof.
  intros Hl Hs Hw Hmax Hnum. unfold train_loop.
  set (len := Z.of_nat (num_batches loader)) in *.
  destruct (training_plan args len) as [[total epochs] |] eqn:Hp;
    [| discriminate].
  pose proof (@run_epochs_steps args total Hl Hs Hw loader
                (Z.to_nat epochs) 0%nat (initial_state p grad0)) as [_ R2].
  simpl global_step in R2. fold len in R2.
  intro E. injection E as E.
  destruct (Nat.eq_dec (num_batches loader) 0) as [N0 | N0].
  { rewrite (@run_epochs_no_batches args total loader _ N0) in E.
    now injection E. }
  destruct (Z.to_nat epochs) as [| k] eqn:Ek.
  { simpl in E. now injection E. }
  exfalso. rewrite E in R2. cbn [fst snd] in R2.
  assert (Hlen : (0 < len)%Z) by (unfold len; lia).
  assert (Hc : (total <= Z.of_nat (S k) * len)%Z).
  { rewrite <- Ek. unfold training_plan in Hp.
    destruct (Z.ltb_spec 0 (max_steps args)) as [Hm | Hm].
    - destruct (@PyFloat.ceil_true_divide_small (max_steps args) len)
        as (x & D & C); [lia | lia |].
      rewrite D in Hp. injection Hp as <- <-. rewrite C in *.
      assert (Hne : len <> 0%Z) by lia.
      pose proof (Z.div_mod (max_steps args + len - 1) len Hne) as DM.
      pose proof (Z.mod_pos_bound (max_steps args + len - 1) len Hlen) as MB.
      rewrite Z2Nat.id by nia. nia.
    - injection Hp as <- <-. rewrite Z2Nat.id by lia. lia. }
  destruct R2 as [R _]; [lia | lia | lia |]. discriminate.
Qed.

(** X7. A zero [logging_steps] or [save_steps] is not noticed at start-up:
    the first batch is trained, its optimizer and scheduler steps are
    taken, and only then the remainder of line 400 or 407 raises.  The
    run consists of the backward passes of the first batch and its
    update, and of nothing else: no evaluation of teacher or student and
    no checkpoint. *)
Theorem zero_interval_raises_after_first_update args loader p grad0
    total epochs :
  logging_steps args = 0%Z \/ save_steps args = 0%Z ->
  (0 < num_batches loader)%nat -> (0 < epochs)%Z ->
  training_plan args (Z.of_nat (num_batches loader)) = Some (total, epochs) ->
  exists st,
    train_loop args loader p grad0 = Some (st, Raised) /\
    global_step st = 1%Z /\ lr_steps st = 1%nat /\
    trace st = map Backward (width_mult_list args)
               ++ [OptimizerStep; SchedulerStep; ClearGrad] /\
    Forall (fun e => ~ is_eval e) (trace st) /\
    count is_optimizer_step (trace st) = 1%nat /\
    student_results (trace st) = [] /\ checkpoints (trace st) = [].
Proof.
  intros Z0 Hn He Hp. unfold train_loop. rewrite Hp.
  destruct (Z.to_nat epochs) as [| k] eqn:Ek; [lia |].
  cbn [run_epochs]. unfold batches_of.
  destruct (num_batches loader) as [| n]; [lia |].
  cbn [seq map run_batches].
  set (b := batch_at loader 0 0).
  set (st0 := initial_state p grad0).
  set (st1 := update (backward_widths args b (next_step st0))).
  assert (T : train_batch args total st0 b = (st1, Raise)).
  { unfold train_batch. fold st1.
    destruct (Z.eqb_spec (logging_steps args) 0) as [| L0]; [reflexivity |].
    destruct ((global_step st1 mod logging_steps args =? 0)%Z
              && loss_unbound args); [reflexivity |].
    destruct Z0 as [Z0 | Z0]; [contradiction |].
    rewrite Z0. reflexivity. }
  rewrite T. exists st1. split; [reflexivity |].
  destruct (backward_widths_spec b (width_mult_list args) (next_step st0))
    as (G1 & _ & _ & L1 & _ & Tr1).
  simpl in G1, L1, Tr1.
  destruct (count_backwards (width_mult_list args)) as (_ & O' & _).
  assert (Tr : trace st1 = map Backward (width_mult_list args)
                           ++ [OptimizerStep; SchedulerStep; ClearGrad]).
  { unfold st1, backward_widths. simpl. rewrite Tr1. simpl.
    now rewrite <- !app_assoc. }
  split; [unfold st1, backward_widths; simpl; now rewrite G1 |].
  split; [unfold st1, backward_widths; simpl; now rewrite L1 |].
  split; [exact Tr |]. rewrite Tr.
  split.
  { apply Forall_app. split.
    - apply Forall_forall. intros e He'. apply in_map_iff in He'.
      destruct He' as (w & <- & _). simpl. tauto.
    - repeat constructor; simpl; tauto. }
  unfold student_results, checkpoints.
  rewrite !count_app, O', !flat_map_app. simpl.
  rewrite !flat_map_backward by reflexivity. unfold count. simpl. auto.
Qed.

(** X8. With [max_steps > 0] the number of epochs is the smallest whose
    batches cover [max_steps], as long as [max_steps] and the number of
    batches are below [2 ^ 53], where the float division of line 345
    loses nothing. *)
Theorem plan_epochs_cover_max_steps args len total epochs :
  (0 < max_steps args < 2 ^ 53)%Z -> (0 < len < 2 ^ 53)%Z ->
  training_plan args len = Some (total, epochs) ->
  total = max_steps args /\
  (len * (epochs - 1) < max_steps args <= len * epochs)%Z.
Proof.
  intros Hm Hlen. unfold training_plan.
  destruct (Z.ltb_spec 0 (max_steps args)) as [_ | ?]; [| lia].
  destruct (PyFloat.ceil_true_divide_small Hm Hlen) as (x & D & C).
  rewrite D. intro E. injection E as <- <-. split; [reflexivity |].
  rewrite C.
  assert (Hne : len <> 0%Z) by lia.
  pose proof (Z.div_mod (max_steps args + len - 1) len Hne) as DM.
  pose proof (Z.mod_pos_bound (max_steps args + len - 1) len ltac:(lia)) as MB.
  nia.
Qed.

(** Beyond [2 ^ 53] the epochs of the plan may fall short of
    [max_steps]. *)
Example plan_epochs_short_of_max_steps :
  training_plan {| max_steps := 2 ^ 53 + 1; num_train_epochs := 1;
                   logging_steps := 1; save_steps := 1;
                   width_mult_list := [1]%Q |} 1
  = Some (2 ^ 53 + 1, 2 ^ 53)%Z.
Proof. vm_compute. reflexivity. Qed.

End Loop.

(* ----------------------------------------------------------------- *)
(** *** [do_train] from Step 6 on *)

(** Scores of zero for blocks of the given widths, the sum of two score
    tables and a score table multiplied by a factor. *)
Definition zero_scores (widths : list nat) : list (list Q) :=
  map (fun n => repeat 0%Q n) widths.

Definition add_scores (a b : list (list Q)) : list (list Q) :=
  map (fun p => map (fun q => (fst q + snd q)%Q)
                    (combine (fst p) (snd p)))
      (combine a b).

Definition scale_scores (c : Q) (a : list (list Q)) : list (list Q) :=
  map (map (Qmult c)) a.

Section DoTrain.

Variable T : Type.
Variable tzero : T.
Variables Input Output : Type.
Variables Grad Batch DevBatch : Type.
Variable gzero : Grad.
Variable gadd : Grad -> Grad -> Grad.

Local Abbreviation model := (Tensors.Model T Input Output).

Variable loss_grad : model -> Batch -> Q -> Grad.
Variable optimizer_update : model -> Grad -> nat -> model.
Variable evaluate_teacher : Q.
Variable evaluate_student : model -> Q -> Q.

(** What one calibration batch adds to the importance of every head and
    of every neuron of every layer (the absolute value of gradient times
    activation, over the examples of the batch), the number of examples
    of a batch, and what the backward passes of the estimation leave as
    gradient on the parameters. *)
Variable contribution : model -> DevBatch -> list (list Q) * list (list Q).
Variable examples : DevBatch -> nat.
Variable calibration_grad : model -> list DevBatch -> Grad.

(** Modelled from the spec: [nlp_utils.compute_neuron_head_importance]
    (PaddleSlim), which is not under src/.  The spec (4.1) has it run a
    full pass over the calibration set, accumulate the absolute value of
    gradient times activation per head and per neuron across the data
    set, and average by the example count at the end; on an empty
    calibration loader the importance is undefined, which "must be
    signaled as a configuration error, not silently defaulted to zero":
    [None]. *)
Definition compute_neuron_head_importance (m : model)
    (data_loader : list DevBatch)
  : option (list (list Q) * list (list Q) * Grad) :=
  match data_loader with
  | [] => None
  | _ :: _ =>
      let heads :=
        map (fun l => Tensors.num_heads (Tensors.self_attn l))
            (Tensors.layers m) in
      let neurons :=
        map (fun l => Tensors.ncols (Tensors.weight (Tensors.linear1 l)))
            (Tensors.layers m) in
      let sums :=
        fold_left
          (fun acc batch =>
             (add_scores (fst acc) (fst (contribution m batch)),
              add_scores (snd acc) (snd (contribution m batch))))
          data_loader (zero_scores heads, zero_scores neurons) in
      let count :=
        inject_Z (Z.of_nat (list_sum (map examples data_loader))) in
      Some (scale_scores (/ count) (fst sums),
            scale_scores (/ count) (snd sums),
            calibration_grad m data_loader)
  end.

(** Either the run ends before the training state of lines 343-375
    exists, or it trains. *)
Inductive run : Type :=
| RaisedBeforeTraining
| Trained (st : TrainState model Grad) (out : outcome).

(** Lines 329-431, in one process.  The construction of the scheduler
    and the optimizer (lines 351-371) is part of [optimizer_update]; the
    calls of [evaluate] are taken to return. *)
Definition do_train (args : Args) (student : model)
    (dev_data_loader : list DevBatch) (train_data_loader : Loader Batch)
  : run :=
  (* Step6: importance of neurons and heads, then the reordering *)
  match compute_neuron_head_importance student dev_data_loader with
  | None => RaisedBeforeTraining
  | Some (head_importance, neuron_importance, grad0) =>
      match Tensors.reorder_neuron_head tzero Argsort.argsort_stable student
              head_importance neuron_importance with
      | None => RaisedBeforeTraining
      | Some student =>
          match train_loop gzero gadd loss_grad optimizer_update
                  evaluate_teacher evaluate_student args train_data_loader
                  student grad0 with
          | None => RaisedBeforeTraining
          | Some (st, out) => Trained st out
          end
      end
  end.

(** C8.  [do_train] itself does not look at the calibration loader
    (lines 329-338): it is the importance estimation that decides.  With
    the estimation the spec describes, an empty calibration loader makes
    the estimation raise, whatever the model and the arguments: no scores
    are returned, of zero or otherwise, and the run ends before the
    weights are reordered and before any training state exists.  Only
    the empty loader does so. *)
Theorem empty_calibration_raises (args : Args) (student : model)
    (train_data_loader : Loader Batch) :
  compute_neuron_head_importance student [] = None /\
  do_train args student [] train_data_loader = RaisedBeforeTraining /\
  (forall st out,
      do_train args student [] train_data_loader <> Trained st out) /\
  (forall dev_data_loader,
      compute_neuron_head_importance student dev_data_loader = None <->
      dev_data_loader = []).
Proof.
  split; [reflexivity |]. split; [reflexivity |]. split.
  - intros st out. discriminate.
  - intros [| b rest]; split; auto; discriminate.
Qed.

End DoTrain.

(* ----------------------------------------------------------------- *)
(** *** Two evaluation rounds *)

(** The parameters are represented by the number of updates they have
    received; gradients are integers. *)
Definition scenario_args : Args :=
  {| max_steps := -1; num_train_epochs := 2;
     logging_steps := 1; save_steps := 1;
     width_mult_list := [1; 1#2]%Q |}.

Definition scenario_loader : Loader nat :=
  {| num_batches := 1; batch_at := fun epoch i => epoch + i |}.

Definition scenario_loss_grad (p batch : nat) (width_mult : Q) : Z :=
  (Z.of_nat p + 10 * Z.of_nat batch
   + (if Qeq_bool width_mult 1 then 100 else 200))%Z.

(** Teacher 0.80; student 0.75 and 0.78 after the first update, 0.82 and
    0.77 after the second, at the widths 1.0 and 0.5. *)
Definition scenario_teacher : Q := (80#100)%Q.

Definition scenario_student (p : nat) (width_mult : Q) : Q :=
  match p with
  | 1 => (if Qeq_bool width_mult 1 then 75#100 else 78#100)%Q
  | _ => (if Qeq_bool width_mult 1 then 82#100 else 77#100)%Q
  end.

Definition scenario_run : option (TrainState nat Z * outcome) :=
  train_loop 0%Z Z.add scenario_loss_grad (fun p _ _ => S p)
             scenario_teacher scenario_student
             scenario_args scenario_loader 0 0%Z.

(** The evaluation events of a trace. *)
Definition eval_events (tr : list event) : list event :=
  filter (fun e => match e with
                   | EvalTeacher _ | EvalStudent _ _ | SaveCheckpoint _ => true
                   | _ => false
                   end) tr.

(** C2, as the code has it.  Checkpoint selection keeps one scalar
    [best_res] for all widths and all evaluation rounds.  It starts at
    [0.0]; after a run it is the largest of [0.0] and the results of the
    student evaluations, and a checkpoint has been written after exactly
    those student results that exceeded every earlier one and [0.0]; the
    result of the teacher is not compared.  For the teacher at 0.80 and
    the student at 0.75, 0.78 in the first round and 0.82, 0.77 in the
    second, checkpoints are written after 0.75, 0.78 and 0.82, and
    [best_res] ends at 0.82. *)
Theorem checkpoint_selection :
  (forall (Params Grad Batch : Type) (gzero : Grad) gadd
          (loss_grad : Params -> Batch -> Q -> Grad) optimizer_update
          evaluate_teacher evaluate_student args loader p grad0 st out,
      train_loop gzero gadd loss_grad optimizer_update evaluate_teacher
                 evaluate_student args loader p grad0 = Some (st, out) ->
      best_res (initial_state p grad0) = 0%Q /\
      best_res st = fold_left qmax (student_results (trace st)) 0%Q /\
      checkpoints (trace st) = records 0%Q (student_results (trace st))) /\
  (exists st,
      scenario_run = Some (st, Returned) /\
      eval_events (trace st)
      = [EvalTeacher (80#100); EvalStudent 1 (75#100);
         SaveCheckpoint (75#100); EvalStudent (1#2) (78#100);
         SaveCheckpoint (78#100);
         EvalTeacher (80#100); EvalStudent 1 (82#100);
         SaveCheckpoint (82#100); EvalStudent (1#2) (77#100)]%Q /\
      checkpoints (trace st) = [75#100; 78#100; 82#100]%Q /\
      best_res st = (82#100)%Q).
Proof.
  split.
  - intros. split; [reflexivity |].
    eapply train_loop_selects_records; eassumption.
  - eexists. split; [vm_compute; reflexivity |].
    repeat split; vm_compute; reflexivity.
Qed.

Lemma checkpoint_selection_witness :
  exists st,
    scenario_run = Some (st, Returned) /\
    best_res st = fold_left qmax (student_results (trace st)) 0%Q /\
    checkpoints (trace st) = records 0%Q (student_results (trace st)).
Proof.
  eexists. split; [vm_compute; reflexivity |].
  apply (proj1 checkpoint_selection nat Z nat 0%Z Z.add scenario_loss_grad
           (fun p _ _ => S p) scenario_teacher scenario_student
           scenario_args scenario_loader 0 0%Z _ Returned).
  vm_compute. reflexivity.
Defined.

(** C2 as stated fails: the best result does not start below every
    result, and the teacher's 0.80 is neither compared nor saved, so that
    checkpoints are written after 0.75 and 0.78 as well. *)
Lemma teacher_result_not_selected :
  exists st,
    scenario_run = Some (st, Returned) /\
    In (EvalTeacher (80#100)%Q) (trace st) /\
    checkpoints (trace st) = [75#100; 78#100; 82#100]%Q /\
    checkpoints (trace st) <> [80#100; 82#100]%Q.
Proof.
  eexists. split; [vm_compute; reflexivity |]. split; [| split].
  - simpl. tauto.
  - reflexivity.
  - discriminate.
Qed.







(* ----------------------------------------------------------------- *)
(** *** The calibration loader of the demonstration model *)

(** Every calibration batch holds one example and adds the scores of the
    demonstration; the evaluations return 0.0. *)
Definition demo_do_train (dev_data_loader : list nat)
  : run Z (list (list Z)) (list (list Z)) Z :=
  do_train 0%Z 0%Z Z.add
    (fun _ (_ : nat) _ => 1%Z) (fun m _ _ => m) 0%Q (fun _ _ => 0%Q)
    (fun _ _ => (Tensors.demo_head_importance,
                 Tensors.demo_neuron_importance))
    (fun _ => 1) (fun _ loader => Z.of_nat (length loader))
    {| max_steps := 1; num_train_epochs := 3;
       logging_steps := 1; save_steps := 1;
       width_mult_list := [1; 1#2]%Q |}
    Tensors.demo_model dev_data_loader
    {| num_batches := 1; batch_at := fun epoch i => epoch + i |}.

(** With two calibration batches the run trains and returns; with none it
    ends before training. *)
Example demo_do_train_runs :
  demo_do_train [] = RaisedBeforeTraining _ _ _ _ /\
  exists st,
    demo_do_train [0; 1] = Trained st Returned /\
    trace st
    = [Backward 1; Backward (1#2); OptimizerStep; SchedulerStep; ClearGrad;
       EvalTeacher 0; EvalStudent 1 0; EvalStudent (1#2) 0]%Q.
Proof.
  split; [reflexivity |].
  eexists. split; vm_compute; reflexivity.
Qed.

(* ----------------------------------------------------------------- *)
(** *** The further properties on concrete runs *)

(** A run that is cut by [max_steps = 3] in its second epoch, with an
    evaluation round after the steps 2 and 3. *)
Definition cut_args : Args :=
  {| max_steps := 3; num_train_epochs := 7;
     logging_steps := 1; save_steps := 2;
     width_mult_list := [1; 1#2]%Q |}.

Definition cut_loader : Loader nat :=
  {| num_batches := 2; batch_at := fun epoch i => epoch + i |}.

Definition cut_run : option (TrainState nat Z * outcome) :=
  train_loop 0%Z Z.add scenario_loss_grad (fun p _ _ => S p)
             scenario_teacher scenario_student cut_args cut_loader 0 0%Z.

Lemma one_update_per_batch_witness :
  exists st,
    cut_run = Some (st, Returned) /\
    Z.of_nat (lr_steps st) = global_step st /\
    count is_optimizer_step (trace st) = lr_steps st /\
    count is_scheduler_step (trace st) = lr_steps st /\
    count is_clear_grad (trace st) = lr_steps st /\
    count is_backward (trace st) = lr_steps st * 2.
Proof.
  eexists. split; [vm_compute; reflexivity |].
  apply (one_update_per_batch 0%Z Z.add scenario_loss_grad
           (fun p _ _ => S p) scenario_teacher scenario_student
           cut_args cut_loader 0 0%Z (out := Returned)).
  vm_compute. reflexivity.
Defined.

Lemma best_res_is_global_maximum_witness :
  exists st,
    scenario_run = Some (st, Returned) /\
    (0 <= best_res st)%Q /\
    (forall r, In r (student_results (trace st)) -> (r <= best_res st)%Q) /\
    (best_res st = 0%Q \/ In (best_res st) (student_results (trace st))).
Proof.
  eexists. split; [vm_compute; reflexivity |].
  apply (best_res_is_global_maximum 0%Z Z.add scenario_loss_grad
           (fun p _ _ => S p) scenario_teacher scenario_student
           scenario_args scenario_loader 0 0%Z (out := Returned)).
  vm_compute. reflexivity.
Defined.

Lemma last_checkpoint_is_best_witness :
  exists st,
    cut_run = Some (st, Returned) /\
    StronglySorted Qlt (checkpoints (trace st)) /\
    Forall (Qlt 0) (checkpoints (trace st)) /\
    last (checkpoints (trace st)) 0%Q = best_res st.
Proof.
  eexists. split; [vm_compute; reflexivity |].
  apply (last_checkpoint_is_best 0%Z Z.add scenario_loss_grad
           (fun p _ _ => S p) scenario_teacher scenario_student
           cut_args cut_loader 0 0%Z (out := Returned)).
  vm_compute. reflexivity.
Defined.

(** The first batch of [cut_run] is not followed by an evaluation round,
    the second is. *)
Lemma evaluation_schedule_witness :
  let step st batch :=
    fst (train_batch 0%Z Z.add scenario_loss_grad (fun p _ _ => S p)
           scenario_teacher scenario_student cut_args 3 st batch) in
  let st1 := step (initial_state 0 0%Z) 0 in
  let st2 := step st1 1 in
  let trained :=
    [Backward 1; Backward (1#2); OptimizerStep; SchedulerStep; ClearGrad]%Q in
  trace st1 = trained /\
  exists evs,
    student_events [1; 1#2]%Q evs /\
    trace st2
    = (trained ++ trained) ++ EvalTeacher scenario_teacher :: evs.
Proof.
  intros step st1 st2 trained.
  pose proof (evaluation_schedule 0%Z Z.add scenario_loss_grad
                (fun p _ _ => S p) scenario_teacher scenario_student
                cut_args 3) as H.
  specialize (H ltac:(discriminate) ltac:(discriminate) ltac:(discriminate)).
  split.
  - exact (H (initial_state 0 0%Z) 0).
  - destruct (H st1 1) as (evs & S & Tr).
    exists evs. split; [exact S |]. exact Tr.
Defined.

(** A loader without batches. *)
Lemma falls_through_only_untrained_witness :
  exists st,
    train_loop 0%Z Z.add scenario_loss_grad (fun p _ _ => S p)
      scenario_teacher scenario_student scenario_args
      {| num_batches := 0; batch_at := fun epoch i => epoch + i |}
      0 0%Z = Some (st, Exhausted) /\
    st = initial_state 0 0%Z.
Proof.
  eexists. split; [vm_compute; reflexivity |].
  apply (falls_through_only_untrained 0%Z Z.add scenario_loss_grad
           (fun p _ _ => S p) scenario_teacher scenario_student
           scenario_args
           {| num_batches := 0; batch_at := fun epoch i => epoch + i |}
           0 0%Z).
  - discriminate.
  - discriminate.
  - discriminate.
  - reflexivity.
  - reflexivity.
  - vm_compute. reflexivity.
Defined.

(** [logging_steps = 0]. *)
Lemma zero_interval_raises_after_first_update_witness :
  exists st,
    train_loop 0%Z Z.add scenario_loss_grad (fun p _ _ => S p)
      scenario_teacher scenario_student
      {| max_steps := -1; num_train_epochs := 2;
         logging_steps := 0; save_steps := 1;
         width_mult_list := [1; 1#2]%Q |}
      scenario_loader 0 0%Z = Some (st, Raised) /\
    global_step st = 1%Z /\ lr_steps st = 1 /\
    trace st = [Backward 1; Backward (1#2);
                OptimizerStep; SchedulerStep; ClearGrad]%Q /\
    Forall (fun e => ~ is_eval e) (trace st) /\
    count is_optimizer_step (trace st) = 1 /\
    student_results (trace st) = [] /\ checkpoints (trace st) = [].
Proof.
  apply (zero_interval_raises_after_first_update 0%Z Z.add
           scenario_loss_grad (fun p _ _ => S p) scenario_teacher
           scenario_student
           {| max_steps := -1; num_train_epochs := 2;
              logging_steps := 0; save_steps := 1;
              width_mult_list := [1; 1#2]%Q |}
           scenario_loader 0 0%Z (total := 2%Z) (epochs := 2%Z)).
  - left. reflexivity.
  - simpl. lia.
  - lia.
  - reflexivity.
Defined.

(** Ten steps over loaders of four batches take three epochs. *)
Lemma plan_epochs_cover_max_steps_witness :
  let args := {| max_steps := 10; num_train_epochs := 7;
                 logging_steps := 1; save_steps := 2;
                 width_mult_list := [1]%Q |} in
  training_plan args 4 = Some (10, 3)%Z /\
  (4 * (3 - 1) < 10 <= 4 * 3)%Z.
Proof.
  intro args. split; [vm_compute; reflexivity |].
  apply (plan_epochs_cover_max_steps args (len := 4%Z) (total := 10%Z)
           (epochs := 3%Z)).
  - split; reflexivity.
  - split; reflexivity.
  - vm_compute. reflexivity.
Defined.

End Train.

(* ================================================================= *)
(** ** [print_arguments] and the set-up of [do_train] *)

Module Setup.

Import String.
Local Open Scope string_scope.

(* ----------------------------------------------------------------- *)
(** *** The order of strings *)

Lemma leb_lt_or_eq (a b : string) :
  String.leb a b = true <-> OrderedTypeEx.String_as_OT.lt a b \/ a = b.
Proof.
  unfold String.leb.
  pose proof (OrderedTypeEx.String_as_OT.cmp_lt a b) as L.
  pose proof (OrderedTypeEx.String_as_OT.cmp_eq a b) as E.
  unfold OrderedTypeEx.String_as_OT.cmp in L, E.
  destruct (String.compare a b); split; intro H; auto; try discriminate.
  - right. now apply E.
  - left. now apply L.
  - destruct H as [H | H]; [apply L in H | apply E in H]; discriminate.
Qed.

Lemma leb_trans (a b c : string) :
  String.leb a b = true -> String.leb b c = true -> String.leb a c = true.
Proof.
  rewrite !leb_lt_or_eq. intros [H1 | ->] [H2 | ->]; auto.
  left. eapply OrderedTypeEx.String_as_OT.lt_trans; eassumption.
Qed.

Lemma leb_false_leb (a b : string) :
  String.leb a b = false -> String.leb b a = true.
Proof.
  intro H. destruct (String.leb_total a b) as [T | T]; congruence.
Qed.

(* ----------------------------------------------------------------- *)
(** *** [print_arguments] *)

Section PrintArguments.

(** The values of the arguments, and their rendering by [%s]. *)
Variable Value : Type.
Variable show : Value -> string.

Definition header : string :=
  "-----------  Configuration Arguments -----------".
Definition footer : string :=
  "------------------------------------------------".

(** ['%s: %s' % (arg, value)] *)
Definition line (item : string * Value) : string :=
  fst item ++ ": " ++ show (snd item).

(** [sorted(vars(args).items())]: the items of a dictionary, whose keys
    are distinct, in the order of their keys. *)
Fixpoint insert_item (x : string * Value) (l : list (string * Value))
  : list (string * Value) :=
  match l with
  | [] => [x]
  | y :: t =>
      if String.leb (fst x) (fst y) then x :: y :: t
      else y :: insert_item x t
  end.

Definition sorted (items : list (string * Value))
  : list (string * Value) :=
  fold_right insert_item [] items.

(** Lines 434-439: the lines printed, in order. *)
Definition print_arguments (args : list (string * Value)) : list string :=
  ((header :: map line (sorted args)) ++ [footer])%list.

Definition key_le (a b : string * Value) : Prop :=
  String.leb (fst a) (fst b) = true.

Lemma insert_item_perm x l : Permutation (insert_item x l) (x :: l).
Proof.
  induction l as [| y t IH]; simpl; [reflexivity |].
  destruct (String.leb (fst x) (fst y)); [reflexivity |].
  rewrite IH. apply perm_swap.
Qed.

Lemma insert_item_sorted x l :
  StronglySorted key_le l -> StronglySorted key_le (insert_item x l).
Proof.
  induction 1 as [| y t S IH F]; simpl.
  - repeat constructor.
  - destruct (String.leb (fst x) (fst y)) eqn:E.
    + constructor; [now constructor |].
      constructor; [exact E |].
      eapply Forall_impl; [| exact F].
      intros z Hz. unfold key_le in *. eapply leb_trans; eassumption.
    + constructor; [exact IH |].
      eapply Permutation_Forall; [symmetry; apply insert_item_perm |].
      constructor; [| exact F]. now apply leb_false_leb.
Qed.

Lemma sorted_spec items :
  Permutation (sorted items) items /\ StronglySorted key_le (sorted items).
Proof.
  unfold sorted. induction items as [| x l [P S]]; simpl.
  - split; constructor.
  - split; [rewrite insert_item_perm; now constructor |].
    now apply insert_item_sorted.
Qed.

(** X20. [print_arguments] prints the header, one line per argument and
    the footer: every argument once, in ascending order of the argument
    names. *)
Theorem print_arguments_lines (args : list (string * Value)) :
  exists body,
    print_arguments args = ((header :: map line body) ++ [footer])%list /\
    Permutation body args /\
    StronglySorted key_le body /\
    List.length (print_arguments args) = List.length args + 2.
Proof.
  destruct (sorted_spec args) as [P S].
  exists (sorted args). repeat split; auto.
  unfold print_arguments.
  rewrite length_app. simpl. rewrite length_map.
  rewrite (Permutation_length P). lia.
Qed.

(** X21. What is printed does not depend on the order in which the
    arguments are held: two argument sets with the same items, with
    distinct names, print the same lines. *)
Theorem print_arguments_order_independent (args args' : list (string * Value)) :
  NoDup (map fst args) -> Permutation args args' ->
  print_arguments args = print_arguments args'.
Proof.
  intros N P. unfold print_arguments. do 3 f_equal.
  destruct (sorted_spec args) as [P1 S1].
  destruct (sorted_spec args') as [P2 S2].
  apply Argsort.sorted_perm_unique with (R := key_le); auto.
  - intros [k v] [k' v'] Hx Hy L1 L2. unfold key_le in *. simpl in *.
    assert (k = k') by (apply String.leb_antisym; auto). subst k'.
    f_equal.
    apply (Permutation_in _ P1) in Hx. apply (Permutation_in _ P1) in Hy.
    clear - N Hx Hy. induction args as [| [a b] l IH]; [contradiction |].
    simpl in N. inversion N as [| ? ? Na Nl]; subst.
    destruct Hx as [Hx | Hx], Hy as [Hy | Hy].
    + congruence.
    + injection Hx as -> ->. exfalso. apply Na.
      apply (in_map fst) in Hy. exact Hy.
    + injection Hy as -> ->. exfalso. apply Na.
      apply (in_map fst) in Hx. exact Hx.
    + now apply IH.
  - rewrite P1, P. now symmetry.
Qed.

End PrintArguments.

(* ----------------------------------------------------------------- *)
(** *** Labels, loss and number of classes *)

Inductive dtype := int64 | float32.
Inductive criterion := CrossEntropyLoss | MSELoss.

Section Labels.

Variable Label : Type.

(** The truth value of [train_ds.label_list]: [None] and the empty list
    are false. *)
Definition truthy (label_list : option (list Label)) : bool :=
  match label_list with
  | Some (_ :: _) => true
  | _ => false
  end.

(** Line 264: [Stack(dtype="int64" if train_ds.label_list else "float32")] *)
Definition label_dtype (label_list : option (list Label)) : dtype :=
  if truthy label_list then int64 else float32.

(** Line 284 *)
Definition num_labels (label_list : option (list Label)) : nat :=
  match label_list with
  | None => 1
  | Some l => List.length l
  end.

(** Lines 324-325 *)
Definition select_criterion (label_list : option (list Label)) : criterion :=
  if truthy label_list then CrossEntropyLoss else MSELoss.

(** X22. The three places of [do_train] that look at the label list
    agree on classification: the loss is the cross entropy exactly when
    the labels are stacked as integers, and then the model has one class
    per label and at least one; without a label list the model has one
    output and the squared error.  The model gets no class at all
    exactly for an empty label list, which is trained with the squared
    error. *)
Theorem label_setup_consistent (label_list : option (list Label)) :
  (select_criterion label_list = CrossEntropyLoss <->
   label_dtype label_list = int64) /\
  (select_criterion label_list = CrossEntropyLoss ->
   exists l, label_list = Some l /\ num_labels label_list = List.length l /\
             1 <= num_labels label_list) /\
  (label_list = None ->
   select_criterion label_list = MSELoss /\ num_labels label_list = 1) /\
  (num_labels label_list = 0 <-> label_list = Some []) /\
  (num_labels label_list = 0 -> select_criterion label_list = MSELoss).
Proof.
  unfold select_criterion, label_dtype, num_labels.
  destruct label_list as [[| x l] |]; simpl; repeat split;
    try congruence; try discriminate; try lia; intros.
  exists (x :: l). repeat split. simpl. lia.
Qed.

End Labels.

(* ----------------------------------------------------------------- *)
(** *** The layers mapped for distillation *)

(** ['{}'.format(idx)] for a natural number. *)
Definition format_nat (n : nat) : string :=
  DecimalString.NilZero.string_of_uint (Nat.to_uint n).

(** Lines 308-310 *)
Definition mapping_layers (num_hidden_layers : nat) : list string :=
  "ernie.embeddings" ::
  map (fun idx => "ernie.encoder.layers." ++ format_nat idx)
      (seq 0 num_hidden_layers).

Lemma to_uint_not_nil (n : nat) : Nat.to_uint n <> Decimal.Nil.
Proof.
  intro H. pose proof (DecimalNat.Unsigned.of_to n) as E.
  rewrite H in E. simpl in E. subst n. discriminate H.
Qed.

Lemma format_nat_inj (n m : nat) : format_nat n = format_nat m -> n = m.
Proof.
  unfold format_nat. intro H.
  apply DecimalNat.Unsigned.to_uint_inj.
  pose proof (DecimalString.NilZero.usu _ (to_uint_not_nil n)) as En.
  pose proof (DecimalString.NilZero.usu _ (to_uint_not_nil m)) as Em.
  rewrite H in En. congruence.
Qed.

(** X23. The distillation maps the embeddings and every encoder layer,
    each once: [mapping_layers] holds one name more than there are hidden
    layers, all names differ, ['ernie.embeddings'] is the first, and
    layer [idx] is at position [idx + 1]. *)
Theorem mapping_layers_distinct (num_hidden_layers : nat) :
  List.length (mapping_layers num_hidden_layers) = S num_hidden_layers /\
  NoDup (mapping_layers num_hidden_layers) /\
  nth_error (mapping_layers num_hidden_layers) 0 = Some "ernie.embeddings" /\
  forall idx, idx < num_hidden_layers ->
    nth_error (mapping_layers num_hidden_layers) (S idx) =
    Some ("ernie.encoder.layers." ++ format_nat idx).
Proof.
  unfold mapping_layers. split; [| split; [| split; [reflexivity |]]].
  - simpl. now rewrite length_map, length_seq.
  - constructor.
    + intro H. apply in_map_iff in H. destruct H as [idx [H _]].
      simpl in H. discriminate H.
    + apply Finite.Injective_map_NoDup; [| apply seq_NoDup].
      intros a b H. simpl in H. apply format_nat_inj. congruence.
  - intros idx H. simpl.
    rewrite nth_error_map, nth_error_nth' with (d := 0)
      by (now rewrite length_seq).
    rewrite seq_nth by assumption. reflexivity.
Qed.

(* ----------------------------------------------------------------- *)
(** *** The parameters with weight decay *)

(** [sub in s] *)
Fixpoint contains (sub s : string) : bool :=
  String.prefix sub s ||
  match s with
  | EmptyString => false
  | String _ t => contains sub t
  end.

(** [sub] occurs in [s]. *)
Definition occurs (sub s : string) : Prop :=
  exists a b, s = a ++ sub ++ b.

Lemma prefix_spec (sub s : string) :
  String.prefix sub s = true <-> exists b, s = sub ++ b.
Proof.
  revert s. induction sub as [| c sub IH]; intros s; simpl.
  - split; [intros _; now exists s | intros _; now destruct s].
  - destruct s as [| d s]; simpl;
      [split; [discriminate | intros [b H]; discriminate] |].
    destruct (Ascii.ascii_dec c d) as [-> | N].
    + rewrite IH. split; intros [b H]; exists b; congruence.
    + split; [discriminate | intros [b H]; congruence].
Qed.

Lemma contains_spec (sub s : string) :
  contains sub s = true <-> occurs sub s.
Proof.
  unfold occurs. induction s as [| c s IH]; cbn [contains];
    rewrite orb_true_iff, prefix_spec.
  - split.
    + intros [[b H] | H]; [| discriminate]. now exists "", b.
    + intros [[| ? a] [b H]]; [left; now exists b | discriminate].
  - rewrite IH. split.
    + intros [[b H] | [a [b H]]]; [now exists "", b |].
      exists (String c a), b. simpl. now rewrite H.
    + intros [[| d a] [b H]]; [left; now exists b |].
      right. exists a, b. simpl in H. congruence.
Qed.

Section Decay.

(** The parameters, with the name [p.name] each carries. *)
Variable Param : Type.
Variable pname : Param -> string.

Definition no_decay : list string := ["bias"; "norm"].

(** Lines 358-361: [named_parameters] yields pairs of the structured
    name and the parameter. *)
Definition decay_params (named_parameters : list (string * Param))
  : list string :=
  map (fun np => pname (snd np))
      (filter (fun np => negb (existsb (fun nd => contains nd (fst np)) no_decay))
              named_parameters).

(** Line 370: [lambda x: x in decay_params] *)
Definition apply_decay_param_fun (named_parameters : list (string * Param))
           (x : string) : bool :=
  existsb (String.eqb x) (decay_params named_parameters).

Lemma apply_decay_param_fun_spec nps x :
  apply_decay_param_fun nps x = true <->
  exists n p, In (n, p) nps /\ pname p = x /\
              contains "bias" n = false /\ contains "norm" n = false.
Proof.
  unfold apply_decay_param_fun, decay_params. rewrite existsb_exists. split.
  - intros [y [Hy E]]. apply String.eqb_eq in E. subst y.
    apply in_map_iff in Hy. destruct Hy as [[n p] [E Hf]].
    apply filter_In in Hf. destruct Hf as [Hin Hc]. simpl in *.
    exists n, p. rewrite orb_false_r in Hc.
    apply negb_true_iff, orb_false_iff in Hc. tauto.
  - intros [n [p [Hin [E [Hb Hn]]]]]. exists x. split; [| apply String.eqb_refl].
    apply in_map_iff. exists (n, p). split; [exact E |].
    apply filter_In. split; [exact Hin |]. simpl. now rewrite Hb, Hn.
Qed.

(** X24. When the parameters carry distinct names, weight decay is
    applied to a parameter exactly when neither [bias] nor [norm] occurs
    in its structured name. *)
Theorem decay_excludes_bias_and_norm
        (named_parameters : list (string * Param)) (n : string) (p : Param) :
  NoDup (map (fun np => pname (snd np)) named_parameters) ->
  In (n, p) named_parameters ->
  (apply_decay_param_fun named_parameters (pname p) = true <->
   ~ occurs "bias" n /\ ~ occurs "norm" n).
Proof.
  intros N Hin. rewrite apply_decay_param_fun_spec.
  rewrite <- !contains_spec, !not_true_iff_false. split.
  - intros [n' [p' [Hin' [E H]]]].
    assert (X : (n', p') = (n, p)); [| now injection X as -> _].
    clear H. induction named_parameters as [| [a b] l IH]; [contradiction |].
    simpl in N. inversion N as [| ? ? Na Nl]; subst.
    destruct Hin as [H1 | H1], Hin' as [H2 | H2].
    + congruence.
    + injection H1 as -> ->. exfalso. apply Na. rewrite <- E.
      apply (in_map (fun np => pname (snd np)) _ _ H2).
    + injection H2 as -> ->. exfalso. apply Na. rewrite E.
      apply (in_map (fun np => pname (snd np)) _ _ H1).
    + now apply IH.
  - intros H. now exists n, p.
Qed.

End Decay.

(* ----------------------------------------------------------------- *)
(** *** The properties on concrete arguments *)

Lemma print_arguments_order_independent_witness :
  print_arguments format_nat [("seed", 42); ("batch_size", 32)]
  = print_arguments format_nat [("batch_size", 32); ("seed", 42)].
Proof.
  apply (print_arguments_order_independent format_nat).
  - simpl. repeat constructor; simpl; intuition discriminate.
  - apply perm_swap.
Defined.

Lemma label_setup_consistent_witness :
  label_dtype (Some [0; 1]) = int64 /\ 1 <= num_labels (Some [0; 1]).
Proof.
  destruct (label_setup_consistent (Some [0; 1])) as ([D _] & N & _).
  split; [exact (D eq_refl) |].
  destruct (N eq_refl) as (l & _ & _ & L). exact L.
Defined.

Lemma mapping_layers_distinct_witness :
  nth_error (mapping_layers 6) 0 = Some "ernie.embeddings" /\
  nth_error (mapping_layers 6) 4 = Some "ernie.encoder.layers.3".
Proof.
  destruct (mapping_layers_distinct 6) as (_ & _ & First & Layer).
  split; [exact First |]. apply (Layer 3). lia.
Defined.

(** Parameters that stand for their names. *)
Definition demo_parameters : list (string * string) :=
  [("ernie.encoder.layers.0.linear1.weight", "linear_0.w_0");
   ("ernie.encoder.layers.0.linear1.bias", "linear_0.b_0");
   ("ernie.encoder.layers.0.norm1.weight", "layer_norm_0.w_0")].

Lemma decay_excludes_bias_and_norm_witness :
  apply_decay_param_fun (fun p => p) demo_parameters "linear_0.b_0" = true
  <-> ~ occurs "bias" "ernie.encoder.layers.0.linear1.bias" /\
      ~ occurs "norm" "ernie.encoder.layers.0.linear1.bias".
Proof.
  apply (decay_excludes_bias_and_norm (fun p => p) demo_parameters
           "ernie.encoder.layers.0.linear1.bias" "linear_0.b_0").
  - simpl. repeat constructor; simpl; intuition discriminate.
  - simpl. tauto.
Defined.

End Setup.
